(** * app_anvisa.py: text normalisation and ingredient search

    A shallow embedding of the matching core of [app_anvisa.py]
    ([normalize], [load_db], [load_alias], [search_ingredients]) and the
    properties of it that the design document states.

    Python text is a sequence of Unicode code points: [pystr] is a list of
    code points.  The two library behaviours the program relies on and that
    are not part of the repository are kept abstract where they are data:
    the transliteration table of Unidecode for non-ASCII characters, and the
    regular-expression engine on patterns outside the small fragment that is
    modelled here. *)

From Stdlib Require Import NArith ZArith Lia Ascii String DecimalString.
From stdpp Require Import base option list sorting.

Local Open Scope N_scope.

(** ** Python text *)

Definition char := N.
Definition pystr := list char.

(** An ASCII literal of the source, as code points. *)
Definition lit (s : string) : pystr :=
  map N_of_ascii (list_ascii_of_string s).

Definition is_ascii (c : char) : bool := c <? 128.

(** [Py_UNICODE_ISSPACE]: the characters [str.strip()] removes and that
    [\s] matches in a [str] pattern. *)
Definition is_space (c : char) : bool :=
  ((9 <=? c) && (c <=? 13)) || ((28 <=? c) && (c <=? 32))
  || (c =? 133) || (c =? 160) || (c =? 5760)
  || ((8192 <=? c) && (c <=? 8202))
  || (c =? 8232) || (c =? 8233) || (c =? 8239) || (c =? 8287)
  || (c =? 12288).

Definition SPACE : char := 32.
Definition DQUOTE : char := 34.
Definition SQUOTE : char := 39.
Definition HYPHEN : char := 45.
Definition SLASH : char := 47.
Definition EN_DASH : char := 8211.
Definition EM_DASH : char := 8212.
Definition MINUS_SIGN : char := 8722.

(** [re.sub(r"\s+", " ", text)]: every maximal run of whitespace becomes one
    space.  [in_run] tells that the previous character was whitespace. *)
Fixpoint sub_ws_from (in_run : bool) (text : pystr) : pystr :=
  match text with
  | [] => []
  | c :: rest =>
      if is_space c
      then (if in_run then sub_ws_from true rest
            else SPACE :: sub_ws_from true rest)
      else c :: sub_ws_from false rest
  end.

Definition sub_ws (text : pystr) : pystr := sub_ws_from false text.

(** [str.lstrip], [str.rstrip], [str.strip]: every leading (trailing)
    character of the given class is removed, not only the first. *)
Fixpoint lstrip (p : char -> bool) (text : pystr) : pystr :=
  match text with
  | [] => []
  | c :: rest => if p c then lstrip p rest else text
  end.

Definition rstrip (p : char -> bool) (text : pystr) : pystr :=
  reverse (lstrip p (reverse text)).

Definition strip (p : char -> bool) (text : pystr) : pystr :=
  rstrip p (lstrip p text).

(** [text.strip()] *)
Definition strip_ws : pystr -> pystr := strip is_space.

(** [text.strip(chars)] *)
Definition in_chars (chars : pystr) (c : char) : bool :=
  existsb (N.eqb c) chars.

Definition strip_chars (chars : pystr) : pystr -> pystr :=
  strip (in_chars chars).

(** [old] is a prefix of [text]. *)
Fixpoint starts_with (old text : pystr) : bool :=
  match old, text with
  | [], _ => true
  | _ :: _, [] => false
  | a :: old', c :: rest => (a =? c) && starts_with old' rest
  end.

(** [text.replace(old, new)] for a non-empty [old]: occurrences are replaced
    from left to right and do not overlap.  [skip] counts the characters of
    a replaced occurrence that are still to be passed over. *)
Fixpoint replace_from (old new : pystr) (skip : nat) (text : pystr) : pystr :=
  match text with
  | [] => []
  | c :: rest =>
      match skip with
      | S k => replace_from old new k rest
      | O =>
          if starts_with old text
          then new ++ replace_from old new (pred (length old)) rest
          else c :: replace_from old new O rest
      end
  end.

Definition replace (old new : pystr) (text : pystr) : pystr :=
  replace_from old new O text.

(** [str.lower()] on the text Unidecode returns, which is ASCII: only the
    letters A to Z change. *)
Definition lower_char (c : char) : char :=
  if (65 <=? c) && (c <=? 90) then c + 32 else c.

Definition lower (text : pystr) : pystr := map lower_char text.

(** ** Python values *)

(** What a worksheet cell or an argument of [normalize] can be.  [PyNaN] is
    the float NaN pandas puts in an empty cell; [PyOther] is any other
    object, given by the text [str()] returns for it. *)
Inductive pyval :=
| PyNone
| PyStr (s : pystr)
| PyNaN
| PyInt (z : Z)
| PyBool (b : bool)
| PyOther (repr : pystr).

(** [str(v)] *)
Definition py_str (v : pyval) : pystr :=
  match v with
  | PyNone => lit "None"
  | PyStr s => s
  | PyNaN => lit "nan"
  | PyInt z => lit (NilEmpty.string_of_int (Z.to_int z))
  | PyBool true => lit "True"
  | PyBool false => lit "False"
  | PyOther repr => repr
  end.

(** A missing value in the sense of pandas ([pd.isna]). *)
Definition is_null (v : pyval) : bool :=
  match v with
  | PyNone | PyNaN => true
  | _ => false
  end.

(** A fragment of Unidecode's tables, used to run the definitions on
    concrete text: accented Latin letters, typographic quotes and dashes,
    the full-width solidus and two CJK characters.  Characters without an
    entry are dropped, as Unidecode does. *)
Definition unidecode_sample (c : char) : pystr :=
  if c =? 225 then lit "a"          (* a with acute *)
  else if c =? 231 then lit "c"     (* c with cedilla *)
  else if c =? 237 then lit "i"     (* i with acute *)
  else if c =? 205 then lit "I"     (* I with acute *)
  else if c =? 8216 then [SQUOTE]   (* left single quotation mark *)
  else if c =? 8217 then [SQUOTE]   (* right single quotation mark *)
  else if c =? 8220 then [DQUOTE]   (* left double quotation mark *)
  else if c =? 8221 then [DQUOTE]   (* right double quotation mark *)
  else if c =? EN_DASH then [HYPHEN]
  else if c =? EM_DASH then lit "--"
  else if c =? MINUS_SIGN then [HYPHEN]
  else if c =? 65295 then [SLASH]   (* fullwidth solidus *)
  else if c =? 21271 then lit "Bei "  (* U+5317 *)
  else if c =? 20140 then lit "Jing " (* U+4EAC *)
  else [].

Section Normalizer.

(** Unidecode's replacement for a non-ASCII character (the empty text when
    it has none). *)
Variable table : char -> pystr.

(** [unidecode(text)]: ASCII characters are kept, every other character is
    replaced by its table entry. *)
Definition unidecode (text : pystr) : pystr :=
  flat_map (fun c => if is_ascii c then [c] else table c) text.

(** Line 32: [strip()], then [strip] of the straight double quote, then
    [strip] of the straight single quote. *)
Definition trim_step (text : pystr) : pystr :=
  strip_chars [SQUOTE] (strip_chars [DQUOTE] (strip_ws text)).

(** Line 33. *)
Definition slash_step (text : pystr) : pystr :=
  replace (lit "/ ") (lit "/")
    (replace (lit " /") (lit "/")
       (replace (lit " / ") (lit "/") text)).

(** Lines 34-35. *)
Definition dash_step (text : pystr) : pystr :=
  fold_left (fun t ch => replace [ch] (lit "-") t)
    [EN_DASH; EM_DASH; MINUS_SIGN] text.

(** Lines 25-38. *)
Definition normalize (text : pyval) : pystr :=
  match text with
  | PyNone => []
  | _ =>
      let text := py_str text in
      let text := sub_ws text in
      let text := trim_step text in
      let text := slash_step text in
      let text := dash_step text in
      let text := unidecode text in
      lower text
  end.

End Normalizer.

(** ** Regular expressions

    [Series.str.contains(pat)] is called with its default [regex=True]: the
    pattern is compiled by [re] and a cell is kept when the compiled pattern
    is found somewhere in it.  The engine is modelled on the patterns made
    of ordinary characters, the dot and parentheses; on every other pattern
    it is the parameter [re_other] of the search below. *)

Definition DOT : char := 46.
Definition LPAREN : char := 40.
Definition RPAREN : char := 41.
Definition NEWLINE : char := 10.

(** The characters with a special meaning in a pattern. *)
Definition re_special (c : char) : bool :=
  in_chars (lit ".^$*+?{}[]\|()") c.

Definition in_fragment (pat : pystr) : bool :=
  forallb (fun c => negb (re_special c) || in_chars [DOT; LPAREN; RPAREN] c)
    pat.

Inductive atom :=
| Lit (c : char)
| AnyChar.

(** Parsing: a group only brackets its content here (there is neither
    alternation nor repetition), so the pattern is the sequence of its
    atoms.  [None] is [re.error]: a closing parenthesis without an opening
    one, or a group that is not closed. *)
Fixpoint parse_atoms (depth : nat) (pat : pystr) : option (list atom) :=
  match pat with
  | [] => match depth with O => Some [] | S _ => None end
  | c :: rest =>
      if c =? LPAREN then parse_atoms (S depth) rest
      else if c =? RPAREN then
        match depth with
        | O => None
        | S d => parse_atoms d rest
        end
      else if c =? DOT then cons AnyChar <$> parse_atoms depth rest
      else cons (Lit c) <$> parse_atoms depth rest
  end.

(** The dot matches every character but the newline. *)
Definition atom_matches (a : atom) (c : char) : bool :=
  match a with
  | Lit x => x =? c
  | AnyChar => negb (c =? NEWLINE)
  end.

Fixpoint match_here (atoms : list atom) (text : pystr) : bool :=
  match atoms, text with
  | [], _ => true
  | _ :: _, [] => false
  | a :: atoms', c :: rest => atom_matches a c && match_here atoms' rest
  end.

(** [pattern.search(text) is not None] *)
Fixpoint re_search (atoms : list atom) (text : pystr) : bool :=
  match_here atoms text
  || match text with
     | [] => false
     | _ :: rest => re_search atoms rest
     end.

(** [q in text]: the literal containment the design document speaks of. *)
Definition substring (q text : pystr) : Prop :=
  exists pre post, text = pre ++ q ++ post.

(** ** Tables *)

(** The reference workbook as [pd.read_excel] returns it: which of the two
    columns the program looks for exist, and the rows.  A cell of a column
    that does not exist is [None]. *)
Record raw_row := {
  raw_ingredient : pyval;
  raw_cas : option pyval;
  raw_other : list pyval
}.

Record sheet := {
  sheet_has_ingredient : bool;
  sheet_has_cas : bool;
  sheet_rows : list raw_row
}.

(** A row of the loaded frame, with its index label: the columns
    [Ingredient], [CAS] (when the sheet has it), the other columns, and the
    two cached keys [__norm_ingredient] and [__norm_cas]. *)
Record record := {
  label : nat;
  ingredient : pyval;
  cas : option pyval;
  other : list pyval;
  norm_ingredient : pystr;
  norm_cas : option pystr
}.

(** The loaded frame; [has_norm_cas] is the test
    ["__norm_cas" in df.columns]. *)
Record DataFrame := {
  has_norm_cas : bool;
  rows : list record
}.

Inductive load_result :=
| NoFile
| Stopped
| Loaded (df : DataFrame).

Record alias_sheet := {
  sheet_has_alias : bool;
  sheet_has_official : bool;
  alias_rows : list (pyval * pyval)
}.

Record alias_entry := {
  alias : pyval;
  official : pyval;
  norm_alias : pystr;
  norm_official : pystr
}.

(** [Series.astype(str)] on one cell: the text [str()] gives, a blank cell
    included (the cell [NaN] becomes the text [nan]).  A pandas that keeps
    a blank cell blank under [astype(str)] leaves [NaN] in the [CAS],
    [Alias] and [Official] columns instead; the cached keys are the same,
    since [normalize] applies [str()] itself.  No statement below depends
    on which of the two the cell is. *)
Definition astype_str (v : pyval) : pyval := PyStr (py_str v).

(** A boolean mask of [search_ingredients]: a Series, or the scalar
    [False] the program uses for a path that selects nothing. *)
Inductive mask :=
| ScalarFalse
| Series (bits : list bool).

(** [series | m] *)
Definition series_or (s : list bool) (m : mask) : list bool :=
  match m with
  | ScalarFalse => s
  | Series bits => zip_with orb s bits
  end.

(** [frame[mask]]: the rows whose bit is set, in the order of the frame. *)
Fixpoint select {A} (l : list A) (bits : list bool) : list A :=
  match l, bits with
  | x :: l', b :: bits' => if b then x :: select l' bits' else select l' bits'
  | _, _ => []
  end.

(** [Series.unique()]: the distinct values in order of first appearance. *)
Fixpoint unique_from (seen l : list pystr) : list pystr :=
  match l with
  | [] => []
  | x :: l' =>
      if bool_decide (x ∈ seen) then unique_from seen l'
      else x :: unique_from (x :: seen) l'
  end.

Definition unique (l : list pystr) : list pystr := unique_from [] l.

(** [Series.isin(values)] *)
Definition isin (values : list pystr) (col : list pystr) : list bool :=
  (fun k => bool_decide (k ∈ values)) <$> col.

Section Matcher.

Variable table : char -> pystr.

(** [re.compile(pat)] followed by [search] on the patterns that are not
    in the modelled fragment; [None] when [re.compile] raises. *)
Variable re_other : pystr -> option (pystr -> bool).

(** One engine compiles the pattern, for every column and every frame (the
    [re] module behind [str.contains] on object columns); inside the
    modelled fragment every engine pandas may use agrees with it. *)
Definition re_compile (pat : pystr) : option (pystr -> bool) :=
  if in_fragment pat then re_search <$> parse_atoms O pat
  else re_other pat.

(** [col.str.contains(pat, na=False)]: [None] when the pattern does not
    compile; a missing cell gives [False]. *)
Definition str_contains (col : list (option pystr)) (pat : pystr)
  : option (list bool) :=
  found ← re_compile pat;
  Some ((fun cell => from_option found false cell) <$> col).

(** Lines 44-59: [NoFile] when the workbook does not exist (the function
    returns [None]), [Stopped] when the column [Ingredient] is missing
    ([st.stop()]); otherwise the frame with the column [__norm_ingredient]
    and, when there is a column [CAS], that column as text and the column
    [__norm_cas]. *)
Definition load_db (file : option sheet) : load_result :=
  match file with
  | None => NoFile
  | Some sh =>
      if negb (sheet_has_ingredient sh) then Stopped
      else
        let with_cas := sheet_has_cas sh in
        Loaded
          {| has_norm_cas := with_cas;
             rows :=
               imap (fun i raw =>
                 {| label := i;
                    ingredient := raw_ingredient raw;
                    cas := if with_cas then astype_str <$> raw_cas raw
                           else raw_cas raw;
                    other := raw_other raw;
                    norm_ingredient := normalize table (raw_ingredient raw);
                    norm_cas :=
                      if with_cas
                      then (fun v => normalize table (astype_str v))
                             <$> raw_cas raw
                      else None |})
                 (sheet_rows sh) |}
  end.

(** Lines 63-76: the empty frame when the workbook does not exist or lacks
    one of the columns [Alias] and [Official]. *)
Definition load_alias (file : option alias_sheet) : list alias_entry :=
  match file with
  | None => []
  | Some sh =>
      if negb (sheet_has_alias sh && sheet_has_official sh) then []
      else
        (fun row =>
           {| alias := astype_str row.1;
              official := astype_str row.2;
              norm_alias := normalize table (astype_str row.1);
              norm_official := normalize table (astype_str row.2) |})
          <$> alias_rows sh
  end.

(** Line 86. *)
Definition mask_ing (df : DataFrame) (norm_q : pystr) : option (list bool) :=
  str_contains ((fun r => Some (norm_ingredient r)) <$> rows df) norm_q.

(** Lines 88-91. *)
Definition mask_cas (df : DataFrame) (norm_q : pystr) : option mask :=
  if has_norm_cas df
  then Series <$> str_contains (norm_cas <$> rows df) norm_q
  else Some ScalarFalse.

(** Lines 93-101. *)
Definition mask_alias (df : DataFrame) (alias_df : list alias_entry)
    (norm_q : pystr) : option mask :=
  match alias_df with
  | [] => Some ScalarFalse
  | _ :: _ =>
      hits ← str_contains ((fun a => Some (norm_alias a)) <$> alias_df) norm_q;
      let alias_hits := select alias_df hits in
      let target_official_norms := unique (norm_official <$> alias_hits) in
      if (0 <? length target_official_norms)%nat
      then Some (Series (isin target_official_norms
                           (norm_ingredient <$> rows df)))
      else Some ScalarFalse
  end.

(** Lines 81-105; [None] when the call raises. *)
Definition search_ingredients (df : DataFrame) (alias_df : list alias_entry)
    (query : pystr) : option (list record) :=
  let norm_q := normalize table (PyStr query) in
  match norm_q with
  | [] => Some []
  | _ :: _ =>
      m_ing ← mask_ing df norm_q;
      m_cas ← mask_cas df norm_q;
      m_alias ← mask_alias df alias_df norm_q;
      let final_mask := series_or (series_or m_ing m_cas) m_alias in
      Some (select (rows df) final_mask)
  end.

End Matcher.

(** ** Sample data *)

(** No pattern outside the fragment compiles: enough to run the search on
    the patterns of the fragment. *)
Definition re_none (pat : pystr) : option (pystr -> bool) := None.

Definition sample_sheet : sheet :=
  {| sheet_has_ingredient := true;
     sheet_has_cas := true;
     sheet_rows :=
       [ {| raw_ingredient := PyStr (lit "Vitamina C");
            raw_cas := Some (PyStr (lit "50-81-7"));
            raw_other := [PyStr (lit "500mg")] |};
         {| raw_ingredient := PyStr (lit "Cafe" ++ [237] ++ lit "na");
            raw_cas := Some PyNaN;
            raw_other := [] |};
         {| raw_ingredient := PyStr (lit "Vitamina B12 (cianocobalamina)");
            raw_cas := Some (PyStr (lit "68-19-9"));
            raw_other := [] |} ] |}.

Definition sample_alias_sheet : alias_sheet :=
  {| sheet_has_alias := true;
     sheet_has_official := true;
     alias_rows :=
       [ (PyStr (lit "Acido Ascorbico"), PyStr (lit "Vitamina C"));
         (PyStr (lit "Vit C"), PyStr (lit "Acido Ascorbico")) ] |}.

Definition sample_df : DataFrame :=
  match load_db unidecode_sample (Some sample_sheet) with
  | Loaded df => df
  | _ => {| has_norm_cas := false; rows := [] |}
  end.

Definition sample_alias : list alias_entry :=
  load_alias unidecode_sample (Some sample_alias_sheet).

(** ** Vocabulary of the statements *)

(** A query without any of the special characters of [re]. *)
Definition literal (q : pystr) : bool :=
  forallb (fun c => negb (re_special c)) q.

(** Row [i] is selected by the mask. *)
Definition mask_bit (m : mask) (i : nat) : Prop :=
  match m with
  | ScalarFalse => False
  | Series bits => bits !! i = Some true
  end.

(** The canonical key of a query typed as ASCII text. *)
Definition key_of (query : string) : pystr :=
  normalize unidecode_sample (PyStr (lit query)).

(** Step 3 as the design document words it: after the whitespace, one
    leading and one trailing quote character, straight or curly, is
    removed if present. *)
Definition is_quote (c : char) : bool :=
  in_chars [DQUOTE; SQUOTE; 8216; 8217; 8220; 8221] c.

Definition drop_one_leading (p : char -> bool) (text : pystr) : pystr :=
  match text with
  | c :: rest => if p c then rest else text
  | [] => []
  end.

Definition drop_one_trailing (p : char -> bool) (text : pystr) : pystr :=
  reverse (drop_one_leading p (reverse text)).

Definition trim_one_quote (text : pystr) : pystr :=
  drop_one_trailing is_quote (drop_one_leading is_quote (strip_ws text)).

(** Every pair of neighbours of [prev :: text] satisfies [r]. *)
Fixpoint adjacent (r : char -> char -> bool) (prev : char) (text : pystr)
  : bool :=
  match text with
  | [] => true
  | x :: rest => r prev x && adjacent r x rest
  end.

(** Every pair of neighbours of [text] satisfies [r]. *)
Definition pairs (r : char -> char -> bool) (text : pystr) : bool :=
  match text with
  | [] => true
  | x :: rest => adjacent r x rest
  end.

(** [a] is not followed by [b]. *)
Definition no_pair (a b : char) (x y : char) : bool :=
  negb ((x =? a) && (y =? b)).

(** Not a whitespace character other than the plain space. *)
Definition plain_space (c : char) : bool :=
  negb (is_space c) || (c =? SPACE).

(** Neither whitespace nor a straight quote: what may stand at either end
    of a canonical key. *)
Definition edge_char (c : char) : bool :=
  negb (is_space c) && negb (in_chars [DQUOTE; SQUOTE] c).

Definition NUL : char := 0.

(** Text that the pipeline leaves as it is: ASCII without capitals, single
    plain spaces, none of them next to a slash, and neither whitespace nor
    a straight quote at the ends. *)
Record canonical (text : pystr) : Prop := {
  canon_ascii : Forall (fun c => is_ascii c = true) text;
  canon_lower : lower text = text;
  canon_plain : Forall (fun c => plain_space c = true) text;
  canon_single : pairs (no_pair SPACE SPACE) text = true;
  canon_before : pairs (no_pair SPACE SLASH) text = true;
  canon_after : pairs (no_pair SLASH SPACE) text = true;
  canon_head : forall c, head text = Some c -> edge_char c = true;
  canon_last : forall c, last text = Some c -> edge_char c = true
}.

(** When [old] is replaced by the character [n]: what the character [p']
    standing before [text] in the result has to satisfy for the relation
    [r'] to hold at the start of the replaced [text]. *)
Definition entry (old : pystr) (n : char) (r' : char -> char -> bool)
    (p' : char) (text : pystr) : Prop :=
  match text with
  | [] => True
  | x :: _ => if starts_with old text then r' p' n = true else r' p' x = true
  end.

(** ** The batch of queries (lines 194-237) *)

(** [text.split("\n")]: the lines of the text, one more than it has
    newline characters. *)
Fixpoint split_lines (text : pystr) : list pystr :=
  match text with
  | [] => [[]]
  | c :: rest =>
      if c =? NEWLINE then [] :: split_lines rest
      else match split_lines rest with
           | line :: lines => (c :: line) :: lines
           | [] => [[c]]
           end
  end.

(** Line 198: the stripped lines that are not blank. *)
Definition user_queries (input_text : pystr) : list pystr :=
  flat_map (fun line => match strip_ws line with
                        | [] => []
                        | q => [q]
                        end)
    (split_lines input_text).

(** The two lists the loop fills: for a query with matches, the query and
    the matched rows (the table shown for it has one line per matched row,
    with the query in front); for a query without, the query. *)
Record batch := {
  results_found : list (pystr * list record);
  results_not_found : list pystr
}.

(** What pressing the button gives: the warning for a blank input, or the
    two lists. *)
Inductive page :=
| Warning
| Report (b : batch).

Section Batch.

Variable table : char -> pystr.
Variable re_other : pystr -> option (pystr -> bool).

(** Lines 205-237: one search per query, in order; [None] when a search
    raises, which ends the run. *)
Fixpoint run_queries (df : DataFrame) (alias_df : list alias_entry)
    (queries : list pystr) (acc : batch) : option batch :=
  match queries with
  | [] => Some acc
  | query :: rest =>
      matches ← search_ingredients table re_other df alias_df query;
      run_queries df alias_df rest
        (match matches with
         | [] => {| results_found := results_found acc;
                    results_not_found := results_not_found acc ++ [query] |}
         | _ :: _ => {| results_found := results_found acc ++ [(query, matches)];
                        results_not_found := results_not_found acc |}
         end)
  end.

(** Lines 194-237. *)
Definition on_submit (df : DataFrame) (alias_df : list alias_entry)
    (input_text : pystr) : option page :=
  match strip_ws input_text with
  | [] => Some Warning
  | _ :: _ =>
      Report <$> run_queries df alias_df (user_queries input_text)
                   {| results_found := []; results_not_found := [] |}
  end.

End Batch.

(** The three dash characters of lines 34-35 become the hyphen. *)
Definition dash_char (c : char) : char :=
  if (c =? EN_DASH) || (c =? EM_DASH) || (c =? MINUS_SIGN) then HYPHEN else c.

(** No letter among the characters. *)
Definition no_letter (text : pystr) : Prop :=
  Forall (fun a => ~ 65 <= a <= 122) text.

(** An alias index whose only entry leads to a name that is not in the
    sample sheet. *)
Definition sample_inert_alias : list alias_entry :=
  load_alias unidecode_sample
    (Some {| sheet_has_alias := true;
             sheet_has_official := true;
             alias_rows :=
               [ (PyStr (lit "Vit C"), PyStr (lit "Acido Ascorbico")) ] |}).

(** An input of four lines, one of them blank. *)
Definition sample_input : pystr :=
  lit "Cafeina" ++ [NEWLINE] ++ lit "  Acido Ascorbico " ++ [13; NEWLINE]
  ++ [NEWLINE] ++ lit "Creatina".

(** * Properties *)

(** ** Row selection *)

Lemma select_sublist {A} (l : list A) bits : sublist (select l bits) l.
Proof.
  revert bits. induction l as [|x l IH]; intros [|[] bits]; simpl;
    try apply sublist_nil_l.
  - by apply sublist_skip.
  - by apply sublist_cons.
Qed.

Lemma select_lookup {A} (l : list A) bits x :
  x ∈ select l bits -> exists i, l !! i = Some x /\ bits !! i = Some true.
Proof.
  revert bits. induction l as [|y l IH]; intros [|b bits]; simpl;
    try (intros H; by apply elem_of_nil in H).
  destruct b.
  - intros [->|H]%elem_of_cons.
    + by exists 0%nat.
    + destruct (IH _ H) as (i & ? & ?). by exists (S i).
  - intros H. destruct (IH _ H) as (i & ? & ?). by exists (S i).
Qed.

Lemma lookup_select {A} (l : list A) bits i x :
  l !! i = Some x -> bits !! i = Some true -> x ∈ select l bits.
Proof.
  revert bits i. induction l as [|y l IH]; intros [|b bits] [|i]; simpl;
    try done.
  - intros [= ->] [= ->]. apply elem_of_cons; by left.
  - intros Hl Hb. destruct b; [apply elem_of_cons; right|]; eauto.
Qed.

Lemma StronglySorted_sublist {A} (R : relation A) (l k : list A) :
  sublist l k -> StronglySorted R k -> StronglySorted R l.
Proof.
  induction 1 as [|x l k Hs IH|x l k Hs IH]; intros Hk; [done|..].
  - apply StronglySorted_inv in Hk as [Hk Hx]. constructor; [by apply IH|].
    apply Forall_forall. intros y Hy. rewrite Forall_forall in Hx.
    apply Hx. by eapply elem_of_sublist.
  - apply StronglySorted_inv in Hk as [Hk _]. by apply IH.
Qed.

Lemma StronglySorted_seq j n : StronglySorted lt (seq j n).
Proof.
  revert j. induction n as [|n IH]; intros j; simpl; constructor; [apply IH|].
  apply Forall_seq. lia.
Qed.

(** ** The frame [load_db] builds *)

Section FrameFacts.

Variable table : char -> pystr.
Variable re_other : pystr -> option (pystr -> bool).

Lemma load_db_labels file df :
  load_db table file = Loaded df ->
  label <$> rows df = seq 0 (length (rows df)).
Proof.
  destruct file as [sh|]; simpl; [|done].
  destruct (sheet_has_ingredient sh); simpl; [|done].
  intros [= <-]. cbn [rows]. rewrite length_imap, fmap_imap.
  rewrite <- (list_fmap_id (seq _ _)), <- imap_seq_0.
  by apply imap_ext.
Qed.

Lemma search_select df alias_df query res :
  search_ingredients table re_other df alias_df query = Some res ->
  exists bits, res = select (rows df) bits.
Proof.
  unfold search_ingredients.
  destruct (normalize table (PyStr query)) as [|c nq].
  - intros [= <-]. exists []. by destruct (rows df).
  - intros H.
    destruct (mask_ing _ df _) as [a|]; simpl in H; [|done].
    destruct (mask_cas _ df _) as [b|]; simpl in H; [|done].
    destruct (mask_alias _ df alias_df _) as [d|]; simpl in H; [|done].
    injection H as <-. eauto.
Qed.

(** C6.  For a frame built by [load_db], every search that returns gives
    each row at most once, whichever of the name, CAS and alias paths
    selected it: no index label occurs twice in the result. *)
Theorem search_no_duplicate_rows file df alias_df query res :
  load_db table file = Loaded df ->
  search_ingredients table re_other df alias_df query = Some res ->
  NoDup (label <$> res).
Proof.
  intros Hload [bits ->]%search_select.
  apply (sublist_NoDup _ (label <$> rows df)).
  - rewrite (load_db_labels _ _ Hload). apply NoDup_seq.
  - apply fmap_sublist, select_sublist.
Qed.

(** C8.  For a frame built by [load_db], the rows a search returns are a
    subsequence of the rows of the frame, so they come in the order of
    the reference table: their index labels increase strictly. *)
Theorem search_preserves_row_order file df alias_df query res :
  load_db table file = Loaded df ->
  search_ingredients table re_other df alias_df query = Some res ->
  sublist res (rows df) /\ StronglySorted lt (label <$> res).
Proof.
  intros Hload [bits ->]%search_select. split; [apply select_sublist|].
  apply (StronglySorted_sublist _ _ (label <$> rows df)).
  - apply fmap_sublist, select_sublist.
  - rewrite (load_db_labels _ _ Hload). apply StronglySorted_seq.
Qed.

End FrameFacts.

(** ** The pattern fragment *)

Lemma starts_with_spec q text :
  starts_with q text = true <-> exists post, text = q ++ post.
Proof.
  revert text. induction q as [|a q IH]; intros text; simpl.
  - split; [intros _; by exists text|done].
  - destruct text as [|c rest].
    + split; [done|]. by intros [post [=]].
    + rewrite andb_true_iff, N.eqb_eq, IH. split.
      * intros [-> [post ->]]. by exists post.
      * intros [post [= -> ->]]. eauto.
Qed.

Lemma match_here_literal q text :
  match_here (Lit <$> q) text = starts_with q text.
Proof.
  revert text. induction q as [|a q IH]; intros [|c rest]; simpl; try done.
  by rewrite IH.
Qed.

Lemma re_search_literal q text :
  re_search (Lit <$> q) text = true <-> substring q text.
Proof.
  unfold substring. induction text as [|c rest IH]; simpl.
  - rewrite orb_false_r, match_here_literal, starts_with_spec. split.
    + intros [post ->]. by exists [], post.
    + intros (pre & post & H). symmetry in H.
      apply app_eq_nil in H as [-> [-> ->]%app_eq_nil]. by exists [].
  - rewrite orb_true_iff, match_here_literal, starts_with_spec, IH. split.
    + intros [[post ->]|(pre & post & ->)].
      * by exists [], post.
      * by exists (c :: pre), post.
    + intros ([|c' pre] & post & H); simpl in H.
      * left. eauto.
      * injection H as -> ->. right. eauto.
Qed.

Lemma not_special_ordinary c :
  re_special c = false -> c <> LPAREN /\ c <> RPAREN /\ c <> DOT.
Proof. intros H. repeat split; intros ->; discriminate H. Qed.

Lemma parse_atoms_literal q :
  literal q = true -> parse_atoms O q = Some (Lit <$> q).
Proof.
  unfold literal. induction q as [|c q IH]; simpl; [done|].
  rewrite andb_true_iff, negb_true_iff. intros [Hc Hq].
  destruct (not_special_ordinary c Hc) as (H1 & H2 & H3).
  apply N.eqb_neq in H1, H2, H3. rewrite H1, H2, H3, (IH Hq). done.
Qed.

Lemma literal_in_fragment q : literal q = true -> in_fragment q = true.
Proof.
  unfold literal, in_fragment. rewrite !forallb_forall.
  intros H c Hc. by rewrite (H c Hc).
Qed.

Lemma elem_of_select {A} (l : list A) bits x :
  x ∈ select l bits <-> exists i, l !! i = Some x /\ bits !! i = Some true.
Proof.
  split; [apply select_lookup|]. intros (i & ? & ?). by eapply lookup_select.
Qed.

Lemma zip_with_orb_lookup (s bits : list bool) i :
  length s = length bits ->
  zip_with orb s bits !! i = Some true
  <-> s !! i = Some true \/ bits !! i = Some true.
Proof.
  revert bits i. induction s as [|a s IH]; intros [|b bits] i; simpl; try done.
  - intros _. split; [done|]. by intros [|].
  - intros [= Hlen]. destruct i as [|i]; simpl; [|by apply IH].
    destruct a, b; simpl; split; (intros [|] || intros ?); eauto; done.
Qed.

Lemma zip_with_orb_length (s bits : list bool) :
  length s = length bits -> length (zip_with orb s bits) = length s.
Proof.
  revert bits. induction s as [|a s IH]; intros [|b bits]; simpl; try done.
  intros [= Hlen]. by rewrite IH.
Qed.

Lemma elem_of_unique_from seen l x :
  x ∈ unique_from seen l <-> x ∈ l /\ x ∉ seen.
Proof.
  revert seen. induction l as [|y l IH]; intros seen; simpl.
  - split; [by intros ?%elem_of_nil|by intros [?%elem_of_nil _]].
  - case_bool_decide as Hy.
    + rewrite IH, elem_of_cons. split; [intros []; eauto|].
      intros [[->|?] ?]; [done|eauto].
    + rewrite !elem_of_cons, IH, elem_of_cons. split.
      * intros [->|[? Hx]]; [by split; [left|]|]. split; [by right|].
        intros ?. apply Hx. by right.
      * intros [Hin Hx]. destruct (decide (x = y)) as [->|Hne]; [by left|].
        right. destruct Hin as [->|?]; [done|]. split; [done|].
        by intros [->|?].
Qed.

Lemma elem_of_unique l x : x ∈ unique l <-> x ∈ l.
Proof.
  unfold unique. rewrite elem_of_unique_from. split; [by intros []|].
  intros ?. split; [done|]. by intros ?%elem_of_nil.
Qed.

Section MatcherFacts.

Variable table : char -> pystr.
Variable re_other : pystr -> option (pystr -> bool).

Lemma re_compile_literal q :
  literal q = true ->
  re_compile re_other q = Some (re_search (Lit <$> q)).
Proof.
  intros H. unfold re_compile.
  by rewrite (literal_in_fragment q H), (parse_atoms_literal q H).
Qed.

Lemma str_contains_literal col q :
  literal q = true ->
  str_contains re_other col q
  = Some ((fun cell => from_option (re_search (Lit <$> q)) false cell)
            <$> col).
Proof. intros H. unfold str_contains. by rewrite (re_compile_literal q H). Qed.

(** Path A on a query without special characters: exactly the rows whose
    name key contains the query. *)
Lemma mask_ing_literal df q :
  literal q = true ->
  exists bits,
    mask_ing re_other df q = Some bits /\
    length bits = length (rows df) /\
    forall i r, rows df !! i = Some r ->
      (bits !! i = Some true <-> substring q (norm_ingredient r)).
Proof.
  intros H. unfold mask_ing. rewrite (str_contains_literal _ q H).
  eexists. split; [done|]. split; [by rewrite !length_fmap|].
  intros i r Hr. rewrite !list_lookup_fmap, Hr. simpl.
  rewrite <- re_search_literal. split; [by intros [= ->]|by intros ->].
Qed.

(** Path B on a query without special characters. *)
Lemma mask_cas_literal df q :
  literal q = true ->
  exists m,
    mask_cas re_other df q = Some m /\
    (forall bits, m = Series bits -> length bits = length (rows df)) /\
    forall i r, rows df !! i = Some r ->
      (mask_bit m i <->
       has_norm_cas df = true /\
       exists k, norm_cas r = Some k /\ substring q k).
Proof.
  intros H. unfold mask_cas. destruct (has_norm_cas df).
  - rewrite (str_contains_literal _ q H). simpl. eexists.
    split; [done|]. split; [intros ? [= <-]; by rewrite !length_fmap|].
    intros i r Hr. simpl. rewrite !list_lookup_fmap, Hr. simpl.
    destruct (norm_cas r) as [k|]; simpl.
    + split.
      * intros [= Hk]. apply re_search_literal in Hk. eauto.
      * intros [_ (k' & [= <-] & Hk)].
        by apply re_search_literal in Hk as ->.
    + split; [done|]. by intros [_ (k' & [=] & _)].
  - exists ScalarFalse. split; [done|]. split; [done|].
    intros i r _. simpl. split; [done|]. by intros [[=] _].
Qed.

(** Path C on a query without special characters: the rows whose name
    key is the official key of an alias entry whose alias key contains
    the query. *)
Lemma mask_alias_literal df alias_df q :
  literal q = true ->
  exists m,
    mask_alias re_other df alias_df q = Some m /\
    (forall bits, m = Series bits -> length bits = length (rows df)) /\
    forall i r, rows df !! i = Some r ->
      (mask_bit m i <->
       exists a, a ∈ alias_df /\ substring q (norm_alias a) /\
                 norm_official a = norm_ingredient r).
Proof.
  intros H. unfold mask_alias. destruct alias_df as [|a0 al].
  - exists ScalarFalse. split; [done|]. split; [done|].
    intros i r _. simpl. split; [done|]. by intros (a & ?%elem_of_nil & _).
  - rewrite (str_contains_literal _ q H). cbn [mbind option_bind].
    set (all := a0 :: al).
    set (hits := _ <$> (_ <$> all)).
    assert (Hbit : forall j a, all !! j = Some a ->
              (hits !! j = Some true <-> substring q (norm_alias a))).
    { intros j a Ha. subst hits. rewrite !list_lookup_fmap, Ha. simpl.
      rewrite <- re_search_literal. split; [by intros [= ->]|by intros ->]. }
    assert (Hhit : forall k, k ∈ (norm_official <$> select all hits) <->
              exists a, a ∈ all /\ substring q (norm_alias a) /\
                        norm_official a = k).
    { intros k. rewrite list_elem_of_fmap. split.
      - intros (a & -> & (j & Ha & Hj)%elem_of_select). exists a.
        split; [by eapply list_elem_of_lookup_2|]. split; [|done].
        by apply (Hbit j).
      - intros (a & [j Ha]%list_elem_of_lookup_1 & Hsub & <-). exists a.
        split; [done|]. apply elem_of_select. exists j. split; [done|].
        by apply (Hbit j a). }
    clearbody hits.
    destruct (0 <? length _)%nat eqn:Hlen.
    + eexists. split; [done|].
      split; [intros ? [= <-]; unfold isin; by rewrite !length_fmap|].
      intros i r Hr. simpl. unfold isin.
      rewrite !list_lookup_fmap, Hr. simpl. split.
      * intros [= Hin%bool_decide_eq_true]. by apply Hhit, elem_of_unique.
      * intros Ha. f_equal. by apply bool_decide_eq_true, elem_of_unique, Hhit.
    + exists ScalarFalse. split; [done|]. split; [done|].
      intros i r _. simpl. split; [done|]. intros Ha.
      apply Hhit, elem_of_unique in Ha. apply Nat.ltb_ge in Hlen.
      destruct (unique _); [by apply elem_of_nil in Ha|simpl in Hlen; lia].
Qed.

Lemma series_or_lookup s m i :
  (forall bits, m = Series bits -> length bits = length s) ->
  series_or s m !! i = Some true <-> s !! i = Some true \/ mask_bit m i.
Proof.
  destruct m as [|bits]; simpl; intros Hlen.
  - split; [by left|by intros [|[]]].
  - apply zip_with_orb_lookup. symmetry. by apply Hlen.
Qed.

Lemma series_or_length s m :
  (forall bits, m = Series bits -> length bits = length s) ->
  length (series_or s m) = length s.
Proof.
  destruct m as [|bits]; simpl; intros Hlen; [done|].
  apply zip_with_orb_length. symmetry. by apply Hlen.
Qed.

(** On a query whose canonical form is not empty and has no special
    character, the search returns, and it returns the rows selected by
    literal containment in the name key or the CAS key, or by one exact
    alias redirection. *)
Theorem search_literal df alias_df query :
  let norm_q := normalize table (PyStr query) in
  norm_q <> [] ->
  literal norm_q = true ->
  exists res,
    search_ingredients table re_other df alias_df query = Some res /\
    forall r, r ∈ res <->
      exists i, rows df !! i = Some r /\
        (substring norm_q (norm_ingredient r)
         \/ (has_norm_cas df = true /\
             exists k, norm_cas r = Some k /\ substring norm_q k)
         \/ (exists a, a ∈ alias_df /\ substring norm_q (norm_alias a) /\
                       norm_official a = norm_ingredient r)).
Proof.
  intros norm_q Hne Hlit. unfold search_ingredients. fold norm_q.
  clearbody norm_q. destruct norm_q as [|c0 nq]; [congruence|].
  cbv iota. set (norm_q := c0 :: nq) in *.
  destruct (mask_ing_literal df norm_q Hlit) as (a & -> & Hla & Ha).
  destruct (mask_cas_literal df norm_q Hlit) as (c & -> & Hlc & Hc).
  destruct (mask_alias_literal df alias_df norm_q Hlit)
    as (d & -> & Hld & Hd).
  cbn [mbind option_bind]. eexists. split; [done|].
  assert (Hlc' : forall bits, c = Series bits -> length bits = length a)
    by (intros; rewrite Hla; eauto).
  assert (Hld' : forall bits, d = Series bits ->
            length bits = length (series_or a c))
    by (intros; rewrite series_or_length, Hla; eauto).
  intros r. rewrite elem_of_select. split.
  - intros (i & Hr & Hbit). exists i. split; [done|].
    destruct (proj1 (series_or_lookup _ _ i Hld') Hbit) as [Hac|Hal].
    + destruct (proj1 (series_or_lookup _ _ i Hlc') Hac) as [Hi|Hi].
      * left. by apply (Ha i).
      * right. left. by apply (Hc i).
    + right. right. by apply (Hd i).
  - intros (i & Hr & Hsel). exists i. split; [done|].
    apply series_or_lookup; [done|].
    destruct Hsel as [Hsel|[Hsel|Hsel]].
    + left. apply series_or_lookup; [done|]. left. by apply (Ha i r).
    + left. apply series_or_lookup; [done|]. right. by apply (Hc i r).
    + right. by apply (Hd i r).
Qed.

(** The empty query: nothing is compiled and no row is returned. *)
Lemma search_empty_query df alias_df query :
  normalize table (PyStr query) = [] ->
  search_ingredients table re_other df alias_df query = Some [].
Proof. intros H. unfold search_ingredients. by rewrite H. Qed.

(** The search raises exactly when the canonical query is not empty and
    does not compile. *)
Lemma search_raises_iff df alias_df query :
  search_ingredients table re_other df alias_df query = None <->
  normalize table (PyStr query) <> [] /\
  re_compile re_other (normalize table (PyStr query)) = None.
Proof.
  unfold search_ingredients, mask_ing, mask_cas, mask_alias, str_contains.
  destruct (normalize table (PyStr query)) as [|c0 nq]; [by split; [|intros []]|].
  destruct (re_compile re_other (c0 :: nq)) as [found|];
    cbn [mbind option_bind]; [|done].
  split; [|by intros [_ [=]]].
  destruct (has_norm_cas df); cbn [fmap option_fmap option_map mbind option_bind];
    destruct alias_df; cbn [mbind option_bind]; try done;
    by destruct (0 <? _)%nat.
Qed.

(** An absent alias file, and an alias table without one of its two
    columns, give the empty alias index; with it the search returns the
    rows selected by the name path or the CAS path whenever these two
    paths return, and on a query without special characters these are the
    rows whose name key or CAS key contains the query. *)
Theorem degraded_alias_mode :
  load_alias table None = [] /\
  (forall sh, sheet_has_alias sh && sheet_has_official sh = false ->
              load_alias table (Some sh) = []) /\
  (forall df query a c,
     normalize table (PyStr query) <> [] ->
     mask_ing re_other df (normalize table (PyStr query)) = Some a ->
     mask_cas re_other df (normalize table (PyStr query)) = Some c ->
     search_ingredients table re_other df (load_alias table None) query
     = Some (select (rows df) (series_or a c))) /\
  (forall df query,
     normalize table (PyStr query) <> [] ->
     literal (normalize table (PyStr query)) = true ->
     exists res,
       search_ingredients table re_other df (load_alias table None) query
       = Some res /\
       forall r, r ∈ res <->
         exists i, rows df !! i = Some r /\
           (substring (normalize table (PyStr query)) (norm_ingredient r)
            \/ (has_norm_cas df = true /\
                exists k, norm_cas r = Some k /\
                          substring (normalize table (PyStr query)) k))).
Proof.
  split; [done|]. split; [|split].
  - intros sh H. unfold load_alias. by rewrite H.
  - intros df query a c Hne Ha Hc. unfold search_ingredients.
    destruct (normalize table (PyStr query)) as [|c0 nq]; [congruence|].
    by rewrite Ha, Hc.
  - intros df query Hne Hlit.
    destruct (search_literal df [] query Hne Hlit) as (res & Hres & Hin).
    exists res. split; [done|]. intros r. rewrite Hin. split.
    + intros (i & Hr & [H|[H|(a & Ha%elem_of_nil & _)]]); [eauto..|done].
    + intros (i & Hr & [H|H]); eauto.
Qed.

(** C4.  A query with an opening parenthesis that is not closed makes the
    search raise, on every frame and every alias index. *)
Theorem search_raises_on_open_parenthesis df alias_df :
  search_ingredients table re_other df alias_df (lit "Vitamina B12 (")
  = None.
Proof. by apply search_raises_iff. Qed.

End MatcherFacts.

(** ** The sample tables *)

Lemma sample_df_loaded :
  load_db unidecode_sample (Some sample_sheet) = Loaded sample_df.
Proof. reflexivity. Qed.

Lemma sample_name_keys :
  norm_ingredient <$> rows sample_df
  = [lit "vitamina c"; lit "cafeina"; lit "vitamina b12 (cianocobalamina)"].
Proof. reflexivity. Qed.

Lemma not_substring q text :
  re_search (Lit <$> q) text = false -> ~ substring q text.
Proof. intros H Hs%re_search_literal. congruence. Qed.

(** C1.  Path A reads the canonical query as a pattern.  On the sample
    frame, whose name keys are [vitamina c], [cafeina] and
    [vitamina b12 (cianocobalamina)]: a dot in the query stands for any
    character, so rows are selected whose key does not contain the query;
    parentheses in the query only group, so a row whose key contains the
    query is not selected; an unclosed parenthesis raises. *)
Theorem path_A_reads_query_as_pattern re_other :
  (mask_ing re_other sample_df (key_of "V.tamina") = Some [true; false; true]
   /\ ~ substring (key_of "V.tamina") (lit "vitamina c"))
  /\ (mask_ing re_other sample_df (key_of "B12 (cianocobalamina)")
       = Some [false; false; false]
      /\ substring (key_of "B12 (cianocobalamina)")
           (lit "vitamina b12 (cianocobalamina)"))
  /\ mask_ing re_other sample_df (key_of "Vitamina B12 (") = None.
Proof.
  split; [split; [reflexivity|by apply not_substring]|].
  split; [split; [reflexivity|]|reflexivity].
  by exists (lit "vitamina "), [].
Qed.

(** C3.  The second row of the sample sheet has an empty CAS cell (NaN).
    Its cached CAS key is the text [nan], not the empty text, and the query
    [nan] selects the row through the CAS path. *)
Theorem null_cas_gets_key_nan re_other :
  exists raw v r,
    sheet_rows sample_sheet !! 1%nat = Some raw
    /\ raw_cas raw = Some v /\ is_null v = true
    /\ rows sample_df !! 1%nat = Some r
    /\ norm_cas r = Some (lit "nan")
    /\ mask_ing re_other sample_df (key_of "nan") = Some [false; false; false]
    /\ mask_cas re_other sample_df (key_of "nan")
       = Some (Series [false; true; false])
    /\ search_ingredients unidecode_sample re_other sample_df [] (lit "nan")
       = Some [r].
Proof. do 3 eexists. repeat split; reflexivity. Qed.

(** C5.  Path C reads the canonical query as a pattern too.  With the
    alias entries [Acido Ascorbico -> Vitamina C] and
    [Vit C -> Acido Ascorbico], the query [Acido.Ascorbico] selects the
    row of [Vitamina C] although no alias key contains the query. *)
Theorem path_C_reads_query_as_pattern re_other :
  mask_alias re_other sample_df sample_alias (key_of "Acido.Ascorbico")
  = Some (Series [true; false; false])
  /\ Forall (fun a => ~ substring (key_of "Acido.Ascorbico") (norm_alias a))
       sample_alias.
Proof.
  split; [reflexivity|].
  repeat constructor; by apply not_substring.
Qed.

(** The chain [Vit C -> Acido Ascorbico -> Vitamina C] is not followed. *)
Example alias_chain_not_followed re_other :
  search_ingredients unidecode_sample re_other sample_df sample_alias
    (lit "Vit C") = Some []
  /\ option_map (map label)
       (search_ingredients unidecode_sample re_other sample_df sample_alias
          (lit "Acido Ascorbico")) = Some [0%nat].
Proof. split; reflexivity. Qed.

(** Rows 0, 1 and 2 are selected by name and row 0 also through an alias:
    it is returned once. *)
Lemma search_no_duplicate_rows_witness :
  exists res,
    search_ingredients unidecode_sample re_none sample_df sample_alias
      (lit "c") = Some res
    /\ label <$> res = [0; 1; 2]%nat
    /\ NoDup (label <$> res).
Proof.
  eexists. split; [reflexivity|]. split; [reflexivity|].
  apply (search_no_duplicate_rows unidecode_sample re_none
           (Some sample_sheet) sample_df sample_alias (lit "c"));
    reflexivity.
Defined.

Lemma search_preserves_row_order_witness :
  exists res,
    search_ingredients unidecode_sample re_none sample_df sample_alias
      (lit "vitamina") = Some res
    /\ label <$> res = [0; 2]%nat
    /\ sublist res (rows sample_df)
    /\ StronglySorted lt (label <$> res).
Proof.
  eexists. split; [reflexivity|]. split; [reflexivity|].
  apply (search_preserves_row_order unidecode_sample re_none
           (Some sample_sheet) sample_df sample_alias (lit "vitamina"));
    reflexivity.
Defined.

Lemma degraded_alias_mode_witness :
  option_map (map label)
    (search_ingredients unidecode_sample re_none sample_df
       (load_alias unidecode_sample None) (lit "50-81-7"))
  = Some [0%nat].
Proof.
  rewrite (proj1 (proj2 (proj2 (degraded_alias_mode unidecode_sample
                                  re_none)))
             sample_df (lit "50-81-7") [false; false; false]
             (Series [true; false; false]));
    [reflexivity|discriminate|reflexivity|reflexivity].
Defined.

(** ** The normaliser *)

Lemma lstrip_spec p text :
  exists pre,
    text = pre ++ lstrip p text
    /\ Forall (fun c => p c = true) pre
    /\ forall c, head (lstrip p text) = Some c -> p c = false.
Proof.
  induction text as [|c rest (pre & Heq & Hpre & Hhd)]; simpl.
  - exists []. by repeat split.
  - destruct (p c) eqn:Hc.
    + exists (c :: pre). simpl. rewrite <- Heq. by repeat constructor.
    + exists []. repeat split; [constructor|]. simpl. by intros ? [= <-].
Qed.

Lemma rstrip_spec p text :
  exists post,
    text = rstrip p text ++ post
    /\ Forall (fun c => p c = true) post
    /\ forall c, last (rstrip p text) = Some c -> p c = false.
Proof.
  unfold rstrip.
  destruct (lstrip_spec p (reverse text)) as (pre & Heq & Hpre & Hhd).
  exists (reverse pre). split; [|split].
  - by rewrite <- reverse_app, <- Heq, reverse_involutive.
  - by apply Forall_reverse.
  - intros c. rewrite last_reverse. apply Hhd.
Qed.

Lemma head_app_some {A} (l k : list A) x :
  head l = Some x -> head (l ++ k) = Some x.
Proof. by destruct l. Qed.

Lemma strip_spec p text :
  exists pre post,
    text = pre ++ strip p text ++ post
    /\ Forall (fun c => p c = true) pre
    /\ Forall (fun c => p c = true) post
    /\ (forall c, head (strip p text) = Some c -> p c = false)
    /\ (forall c, last (strip p text) = Some c -> p c = false).
Proof.
  unfold strip.
  destruct (lstrip_spec p text) as (pre & Heq & Hpre & Hhd).
  destruct (rstrip_spec p (lstrip p text)) as (post & Heq' & Hpost & Hlast).
  exists pre, post. split; [by rewrite <- Heq'|]. repeat split; try done.
  intros c Hc. apply Hhd. rewrite Heq'. by apply head_app_some.
Qed.

Lemma in_chars_singleton a c : in_chars [a] c = true <-> c = a.
Proof. unfold in_chars. simpl. by rewrite orb_false_r, N.eqb_eq. Qed.

(** C7.  What line 32 removes after the whitespace: every leading and
    every trailing straight double quote, and then every leading and every
    trailing straight single quote.  What is removed consists of straight
    quotes only (a curly quote is never removed), and removal does not stop
    after one character: the result has no single quote left at either
    end, and a double quote only where single quotes shielded it. *)
Theorem trim_step_strips_all_straight_quotes text :
  exists d1 s1 s2 d2,
    strip_ws text = d1 ++ s1 ++ trim_step text ++ s2 ++ d2
    /\ Forall (fun c => c = DQUOTE) d1 /\ Forall (fun c => c = SQUOTE) s1
    /\ Forall (fun c => c = SQUOTE) s2 /\ Forall (fun c => c = DQUOTE) d2
    /\ head (trim_step text) <> Some SQUOTE
    /\ last (trim_step text) <> Some SQUOTE
    /\ (s1 = [] -> head (trim_step text) <> Some DQUOTE)
    /\ (s2 = [] -> last (trim_step text) <> Some DQUOTE).
Proof.
  unfold trim_step, strip_chars.
  destruct (strip_spec (in_chars [DQUOTE]) (strip_ws text))
    as (d1 & d2 & Hd & Hd1 & Hd2 & Hdh & Hdl).
  set (m := strip (in_chars [DQUOTE]) (strip_ws text)) in *.
  destruct (strip_spec (in_chars [SQUOTE]) m)
    as (s1 & s2 & Hs & Hs1 & Hs2 & Hsh & Hsl).
  set (r := strip (in_chars [SQUOTE]) m) in *.
  exists d1, s1, s2, d2.
  split; [by rewrite Hd, Hs, <- !app_assoc|].
  repeat split.
  - eapply Forall_impl; [exact Hd1|]. intros c. apply in_chars_singleton.
  - eapply Forall_impl; [exact Hs1|]. intros c. apply in_chars_singleton.
  - eapply Forall_impl; [exact Hs2|]. intros c. apply in_chars_singleton.
  - eapply Forall_impl; [exact Hd2|]. intros c. apply in_chars_singleton.
  - intros H. by specialize (Hsh _ H).
  - intros H. by specialize (Hsl _ H).
  - intros -> H. simpl in Hs. 
    assert (head m = Some DQUOTE) as Hm
      by (rewrite Hs; by apply head_app_some).
    by specialize (Hdh _ Hm).
  - intros -> H. rewrite app_nil_r in Hs.
    assert (last m = Some DQUOTE) as Hm.
    { rewrite Hs. destruct r as [|c r] using rev_ind; [done|].
      rewrite last_snoc in H. injection H as ->.
      by rewrite app_assoc, last_snoc. }
    by specialize (Hdl _ Hm).
Qed.

(** C7, as the design document has it, fails: a doubled leading quote
    loses both characters where the document removes one. *)
Lemma trim_step_removes_doubled_quote :
  trim_step ([DQUOTE; DQUOTE] ++ lit "abc")
  <> trim_one_quote ([DQUOTE; DQUOTE] ++ lit "abc").
Proof. discriminate. Qed.

Example trim_step_on_doubled_quote :
  trim_step ([DQUOTE; DQUOTE] ++ lit "abc") = lit "abc"
  /\ trim_one_quote ([DQUOTE; DQUOTE] ++ lit "abc") = DQUOTE :: lit "abc".
Proof. by split. Qed.

(** Curly quotes are left in place. *)
Example trim_step_keeps_curly_quotes :
  trim_step ([8220] ++ lit "abc" ++ [8221]) = [8220] ++ lit "abc" ++ [8221]
  /\ trim_one_quote ([8220] ++ lit "abc" ++ [8221]) = lit "abc".
Proof. by split. Qed.

Section NormalizerFacts.

Variable table : char -> pystr.

Lemma lower_char_ascii c : is_ascii c = true -> is_ascii (lower_char c) = true.
Proof.
  unfold is_ascii, lower_char. intros H%N.ltb_lt.
  destruct (_ && _) eqn:Hc; apply N.ltb_lt; [|done].
  apply andb_true_iff in Hc as [_ ?%N.leb_le]. lia.
Qed.

Hypothesis table_ascii :
  forall c, Forall (fun x => is_ascii x = true) (table c).

Lemma unidecode_ascii text :
  Forall (fun x => is_ascii x = true) (unidecode table text).
Proof.
  unfold unidecode. induction text as [|c rest IH]; simpl; [constructor|].
  apply Forall_app. split; [|done].
  destruct (is_ascii c) eqn:Hc; [by repeat constructor|apply table_ascii].
Qed.

(** C10.  [normalize] is defined on every value, the null value gives
    the empty text, and when the table of Unidecode holds ASCII text only,
    so does every canonical key. *)
Theorem normalize_ascii (text : pyval) :
  normalize table PyNone = []
  /\ Forall (fun x => is_ascii x = true) (normalize table text).
Proof.
  split; [done|].
  assert (H : forall t,
    Forall (fun x => is_ascii x = true) (lower (unidecode table t))).
  { intros t. unfold lower. apply Forall_fmap.
    eapply Forall_impl; [apply unidecode_ascii|]. apply lower_char_ascii. }
  destruct text; [constructor|apply H..].
Qed.

End NormalizerFacts.

Lemma unidecode_sample_ascii c :
  Forall (fun x => is_ascii x = true) (unidecode_sample c).
Proof.
  unfold unidecode_sample.
  repeat (destruct (c =? _); [by repeat constructor|]). constructor.
Qed.

Lemma normalize_ascii_witness :
  normalize unidecode_sample (PyStr [21271; 20140]) = lit "bei jing "
  /\ Forall (fun x => is_ascii x = true)
       (normalize unidecode_sample (PyStr [21271; 20140])).
Proof.
  split; [reflexivity|].
  apply (normalize_ascii unidecode_sample unidecode_sample_ascii).
Defined.

(** C2, for all texts, fails.  Two passes differ on quoted ASCII text:
    the inner quotes are first protected by the outer ones and then
    removed. *)
Lemma normalize_not_idempotent :
  normalize unidecode_sample
    (PyStr (normalize unidecode_sample
              (PyStr ([SQUOTE; DQUOTE] ++ lit "Vitamina C"
                      ++ [DQUOTE; SQUOTE]))))
  <> normalize unidecode_sample
       (PyStr ([SQUOTE; DQUOTE] ++ lit "Vitamina C" ++ [DQUOTE; SQUOTE])).
Proof. discriminate. Qed.

(** The same on CJK text: each character is transliterated to a syllable
    followed by a space, and the last space goes only in a second pass. *)
Example normalize_not_idempotent_cjk :
  normalize unidecode_sample (PyStr [21271; 20140]) = lit "bei jing "
  /\ normalize unidecode_sample (PyStr (lit "bei jing ")) = lit "bei jing".
Proof. by split. Qed.

(** And on a curly-quoted name. *)
Example normalize_not_idempotent_curly :
  normalize unidecode_sample (PyStr ([8220] ++ lit "Zinco" ++ [8221]))
  = [DQUOTE] ++ lit "zinco" ++ [DQUOTE]
  /\ normalize unidecode_sample (PyStr ([DQUOTE] ++ lit "zinco" ++ [DQUOTE]))
     = lit "zinco".
Proof. by split. Qed.

(** ** Replacement *)

Lemma replace_from_skip old new k text :
  replace_from old new k text = replace old new (drop k text).
Proof.
  unfold replace. revert k.
  induction text as [|c rest IH]; intros [|k]; simpl; try done.
Qed.

Lemma replace_cons old new c rest :
  replace old new (c :: rest)
  = if starts_with old (c :: rest)
    then new ++ replace old new (drop (pred (length old)) rest)
    else c :: replace old new rest.
Proof.
  unfold replace at 1. cbn [replace_from].
  destruct (starts_with old (c :: rest)); [|done].
  by rewrite replace_from_skip.
Qed.

Lemma starts_with_drop old c rest :
  starts_with old (c :: rest) = true ->
  old <> [] ->
  c :: rest = old ++ drop (pred (length old)) rest.
Proof.
  intros [post Hpost]%starts_with_spec Hne. rewrite Hpost.
  destruct old as [|a old]; [done|]. simpl in *. injection Hpost as -> ->.
  by rewrite drop_app_length.
Qed.

Lemma adjacent_app r p l k :
  adjacent r p (l ++ k) = adjacent r p l && adjacent r (default p (last l)) k.
Proof.
  revert p. induction l as [|x l IH]; intros p; simpl; [done|].
  rewrite IH, andb_assoc, last_cons. by destruct (last l).
Qed.

Lemma adjacent_pairs r p text :
  (forall x, r p x = true) -> adjacent r p text = pairs r text.
Proof. intros H. destruct text as [|x rest]; simpl; [done|]. by rewrite H. Qed.

Lemma pairs_adjacent r p x rest :
  adjacent r p (x :: rest) = true -> pairs r (x :: rest) = true.
Proof. simpl. by intros [_ ?]%andb_true_iff. Qed.

Lemma pairs_app r l k : pairs r (l ++ k) = true -> pairs r l = true /\ pairs r k = true.
Proof.
  destruct l as [|x l]; simpl; [done|]. rewrite adjacent_app, andb_true_iff.
  intros [Hl Hk]. split; [done|]. destruct k; [done|].
  by eapply pairs_adjacent.
Qed.

Section ReplaceByOne.

(** [old], which begins with [a] and ends with [z], is replaced by the
    single character [n]. *)
Variables (old : pystr) (a z n : char).
Hypothesis old_head : head old = Some a.
Hypothesis old_last : last old = Some z.

Lemma old_not_nil : old <> [].
Proof. by destruct old. Qed.

Lemma replace_not_nil text : text <> [] -> replace old [n] text <> [].
Proof.
  destruct text as [|c rest]; [done|]. intros _. rewrite replace_cons.
  by destruct (starts_with _ _).
Qed.

Lemma replace_length_ind (P : list char -> Prop) :
  P [] ->
  (forall c rest,
     (forall t, length t <= length rest -> P t)%nat -> P (c :: rest)) ->
  forall text : list char, P text.
Proof.
  intros Hnil Hcons text.
  induction text as [text IH] using (induction_ltof1 _ (@length char)).
  destruct text as [|c rest]; [done|]. apply Hcons.
  intros t Ht. apply IH. unfold ltof. simpl. lia.
Qed.

Lemma Forall_replace (P : char -> Prop) text :
  P n -> Forall P text -> Forall P (replace old [n] text).
Proof.
  intros Hn. induction text as [|c rest IH] using replace_length_ind;
    [done|].
  intros Hall. rewrite replace_cons.
  destruct (starts_with old (c :: rest)) eqn:Hs.
  - constructor; [done|]. apply IH; [rewrite length_drop; lia|].
    apply Forall_cons in Hall as [_ Hall]. by apply Forall_drop.
  - apply Forall_cons in Hall as [? ?]. constructor; [done|]. by apply IH.
Qed.

Lemma head_replace text :
  head (replace old [n] text)
  = if starts_with old text then Some n else head text.
Proof.
  destruct text as [|c rest].
  - destruct old; [done|]. done.
  - rewrite replace_cons. by destruct (starts_with _ _).
Qed.

Lemma last_replace text :
  z = n \/ last text <> Some z ->
  last (replace old [n] text) = last text.
Proof.
  induction text as [|c rest IH] using replace_length_ind; [done|].
  intros Hz. rewrite replace_cons.
  destruct (starts_with old (c :: rest)) eqn:Hs.
  - rewrite (starts_with_drop _ _ _ Hs old_not_nil) in Hz |- *.
    assert (Hlen : (length (drop (pred (length old)) rest) <= length rest)%nat)
      by (rewrite length_drop; lia).
    destruct (drop (pred (length old)) rest) as [|c' rest''].
    + rewrite (app_nil_r old) in *. cbn. rewrite old_last in Hz |- *.
      destruct Hz as [->|Hz]; [done|by destruct Hz].
    + rewrite last_app_cons in Hz |- *.
      change ([n] ++ ?l) with (n :: l).
      pose proof (replace_not_nil (c' :: rest'')) as Hnn.
      destruct (replace old [n] (c' :: rest'')) as [|u v] eqn:Hrep;
        [by destruct Hnn|].
      rewrite last_cons_cons, <- Hrep. by apply IH.
  - destruct rest as [|c' rest']; [done|].
    pose proof (replace_not_nil (c' :: rest')) as Hnn.
    destruct (replace old [n] (c' :: rest')) as [|u v] eqn:Hrep;
      [by destruct Hnn|].
    rewrite !last_cons_cons, <- Hrep. apply IH; [done|].
    by rewrite last_cons_cons in Hz.
Qed.

End ReplaceByOne.

Lemma starts_with_head old a text :
  head old = Some a -> starts_with old text = true -> head text = Some a.
Proof.
  destruct old as [|a' old']; [done|]. intros [= ->].
  destruct text as [|x rest]; simpl; [done|].
  by intros [->%N.eqb_eq _]%andb_true_iff.
Qed.

Section ReplacePairs.

(** How a relation between neighbours goes through a replacement by one
    character: [r] holds in the text, [r'] is wanted in the result. *)
Variables (old : pystr) (a z n : char).
Hypothesis old_head : head old = Some a.
Hypothesis old_last : last old = Some z.
Variables r r' : char -> char -> bool.
Hypothesis kept : forall x y rest,
  r x y = true -> starts_with old (x :: y :: rest) = false -> r' x y = true.
Hypothesis before : forall x, r x a = true -> r' x n = true.
Hypothesis after : forall y, r z y = true -> r' n y = true.
Hypothesis between : r z a = true -> r' n n = true.

Lemma entry_after_match text :
  adjacent r z text = true -> entry old n r' n text.
Proof.
  destruct text as [|y rest]; simpl; [done|].
  intros [Hzy _]%andb_true_iff.
  destruct (starts_with old (y :: rest)) eqn:Hs; [|by apply after].
  apply (starts_with_head _ _ _ old_head) in Hs. injection Hs as ->.
  by apply between.
Qed.

Lemma entry_after_kept x text :
  starts_with old (x :: text) = false ->
  adjacent r x text = true -> entry old n r' x text.
Proof.
  destruct text as [|y rest]; simpl; [done|].
  intros Hx [Hxy _]%andb_true_iff.
  destruct (starts_with old (y :: rest)) eqn:Hs; [|by eapply kept].
  apply (starts_with_head _ _ _ old_head) in Hs. injection Hs as ->.
  by apply before.
Qed.

Lemma replace_adjacent text :
  forall p p',
    adjacent r p text = true -> entry old n r' p' text ->
    adjacent r' p' (replace old [n] text) = true.
Proof.
  induction text as [|c rest IH] using replace_length_ind; [done|].
  intros p p' Hadj Hentry. rewrite replace_cons. unfold entry in Hentry.
  destruct (starts_with old (c :: rest)) eqn:Hs.
  - cbn. rewrite Hentry. cbn.
    assert (Hz : adjacent r z (drop (pred (length old)) rest) = true).
    { assert (Hne : old <> []) by (by destruct old).
      rewrite (starts_with_drop _ _ _ Hs Hne) in Hadj.
      rewrite adjacent_app, old_last in Hadj.
      by apply andb_true_iff in Hadj as [_ ?]. }
    apply IH with (p := z);
      [rewrite length_drop; lia|done|by apply entry_after_match].
  - cbn. rewrite Hentry. cbn. cbn in Hadj.
    apply andb_true_iff in Hadj as [_ Hadj].
    apply IH with (p := c); [lia|done|by apply entry_after_kept].
Qed.

(** [p0] is a character outside the relations, standing before the text. *)
Lemma replace_pairs p0 text :
  (forall x, r p0 x = true) -> (forall x, r' p0 x = true) ->
  pairs r text = true -> pairs r' (replace old [n] text) = true.
Proof.
  intros H0 H0' Hp. rewrite <- (adjacent_pairs r' p0 _ H0').
  apply (replace_adjacent text p0 p0).
  - by rewrite (adjacent_pairs r p0 _ H0).
  - unfold entry. destruct text; [done|]. by destruct (starts_with _ _).
Qed.

End ReplacePairs.

(** A replacement leaves a text without occurrence as it is. *)
Lemma replace_no_pair a b more new p text :
  adjacent (no_pair a b) p text = true ->
  replace (a :: b :: more) new text = text.
Proof.
  revert p. induction text as [|x rest IH]; intros p; [done|].
  intros [_ Hadj]%andb_true_iff. rewrite replace_cons.
  destruct (starts_with _ _) eqn:Hs; [|by rewrite (IH x)].
  exfalso. cbn in Hs. apply andb_true_iff in Hs as [->%N.eqb_eq Hs].
  destruct rest as [|y rest]; [done|].
  cbn in Hs. apply andb_true_iff in Hs as [->%N.eqb_eq _].
  cbn in Hadj. unfold no_pair in Hadj. by rewrite !N.eqb_refl in Hadj.
Qed.

Lemma replace_absent a more new text :
  Forall (fun c => c <> a) text -> replace (a :: more) new text = text.
Proof.
  induction 1 as [|x rest Hx _ IH]; [done|]. rewrite replace_cons.
  cbn. destruct (a =? x) eqn:Ha; [by apply N.eqb_eq in Ha|]. cbn.
  by rewrite IH.
Qed.

(** ** Canonical text *)

Ltac char_cases :=
  unfold no_pair, edge_char, plain_space, in_chars, SPACE, SLASH, NUL,
    DQUOTE, SQUOTE in *; cbn [existsb starts_with] in *;
  repeat match goal with
    | H : context [N.eqb ?x ?y] |- _ => destruct (N.eqb_spec x y)
    | |- context [N.eqb ?x ?y] => destruct (N.eqb_spec x y)
    end;
  subst; cbn in *; try done; try lia.

Lemma is_space_SPACE : is_space SPACE = true.
Proof. done. Qed.

Lemma letter_not_space c : 65 <= c <= 122 -> is_space c = false.
Proof.
  intros Hc. unfold is_space.
  replace (c <=? 13) with false by (symmetry; apply N.leb_gt; lia).
  replace (c <=? 32) with false by (symmetry; apply N.leb_gt; lia).
  replace (8192 <=? c) with false by (symmetry; apply N.leb_gt; lia).
  repeat match goal with
    | |- context [c =? ?k] =>
        replace (c =? k) with false by (symmetry; apply N.eqb_neq; lia)
    end.
  by rewrite !andb_false_r.
Qed.

Lemma lower_char_cases c :
  (65 <= c <= 90 /\ lower_char c = c + 32)
  \/ (~ 65 <= c <= 90 /\ lower_char c = c).
Proof.
  unfold lower_char. destruct (N.leb_spec 65 c), (N.leb_spec c 90); simpl;
    (left; split; [lia|done]) || (right; split; [lia|done]).
Qed.

Lemma lower_char_idem c : lower_char (lower_char c) = lower_char c.
Proof.
  destruct (lower_char_cases c) as [[Hc ->]|[Hc ->]].
  - destruct (lower_char_cases (c + 32)) as [[? _]|[_ ->]]; [lia|done].
  - destruct (lower_char_cases c) as [[? _]|[_ ->]]; [lia|done].
Qed.

Lemma lower_char_space c : is_space (lower_char c) = is_space c.
Proof.
  destruct (lower_char_cases c) as [[Hc ->]|[Hc ->]]; [|done].
  rewrite !letter_not_space; [done|lia..].
Qed.

(** A character that is not a letter is the lower case of itself only. *)
Lemma lower_char_eqb k c :
  ~ 65 <= k <= 122 -> (lower_char c =? k) = (c =? k).
Proof.
  intros Hk. destruct (lower_char_cases c) as [[Hc ->]|[Hc ->]]; [|done].
  destruct (N.eqb_spec (c + 32) k), (N.eqb_spec c k); (done || lia).
Qed.

Lemma lower_char_plain c : plain_space (lower_char c) = plain_space c.
Proof.
  unfold plain_space. rewrite lower_char_space, lower_char_eqb; [done|].
  unfold SPACE. lia.
Qed.

Lemma lower_char_edge c : edge_char (lower_char c) = edge_char c.
Proof.
  unfold edge_char, in_chars. cbn [existsb].
  rewrite lower_char_space, !lower_char_eqb; [done|unfold SQUOTE|unfold DQUOTE];
    lia.
Qed.

Lemma adjacent_lower a b p text :
  ~ 65 <= a <= 122 -> ~ 65 <= b <= 122 ->
  adjacent (no_pair a b) (lower_char p) (lower text)
  = adjacent (no_pair a b) p text.
Proof.
  intros Ha Hb. revert p. induction text as [|x rest IH]; intros p; [done|].
  cbn. rewrite IH. unfold no_pair. by rewrite !lower_char_eqb.
Qed.

Lemma pairs_lower a b text :
  ~ 65 <= a <= 122 -> ~ 65 <= b <= 122 ->
  pairs (no_pair a b) (lower text) = pairs (no_pair a b) text.
Proof.
  intros Ha Hb. destruct text as [|x rest]; [done|].
  by apply adjacent_lower.
Qed.

Lemma lower_idem text : lower (lower text) = lower text.
Proof.
  unfold lower. rewrite map_map. apply map_ext. intros c.
  apply lower_char_idem.
Qed.

Lemma head_lower text : head (lower text) = lower_char <$> head text.
Proof. by destruct text. Qed.

Lemma last_lower text : last (lower text) = lower_char <$> last text.
Proof. unfold lower. apply (fmap_last lower_char). Qed.

(** *** Whitespace *)

Lemma sub_ws_from_ascii b text :
  Forall (fun c => is_ascii c = true) text ->
  Forall (fun c => is_ascii c = true) (sub_ws_from b text).
Proof.
  intros H. revert b. induction H as [|c rest Hc _ IH]; intros b; cbn;
    [done|].
  destruct (is_space c); [destruct b|]; repeat constructor; auto.
Qed.

Lemma sub_ws_from_plain b text :
  Forall (fun c => plain_space c = true) (sub_ws_from b text).
Proof.
  revert b. induction text as [|c rest IH]; intros b; cbn; [done|].
  destruct (is_space c) eqn:Hc; [destruct b|]; repeat constructor; auto.
  unfold plain_space. by rewrite Hc.
Qed.

Lemma sub_ws_from_single (b : bool) text :
  adjacent (no_pair SPACE SPACE) (if b then SPACE else NUL)
    (sub_ws_from b text) = true.
Proof.
  revert b. induction text as [|c rest IH]; intros b; cbn; [done|].
  destruct (is_space c) eqn:Hc.
  - destruct b; [apply (IH true)|]. cbn. apply (IH true).
  - cbn. rewrite andb_true_iff. split.
    + unfold no_pair. destruct (N.eqb_spec c SPACE) as [->|_];
        [by rewrite is_space_SPACE in Hc|by rewrite andb_false_r].
    + specialize (IH false). destruct (sub_ws_from false rest) as [|y l];
        [done|]. cbn in IH |- *. rewrite IH, andb_true_r. unfold no_pair.
      destruct (N.eqb_spec c SPACE) as [->|_];
        [by rewrite is_space_SPACE in Hc|done].
Qed.

Lemma sub_ws_single text : pairs (no_pair SPACE SPACE) (sub_ws text) = true.
Proof.
  rewrite <- (adjacent_pairs (no_pair SPACE SPACE) NUL);
    [apply (sub_ws_from_single false)|done].
Qed.

Lemma sub_ws_from_fixed b p text :
  Forall (fun c => plain_space c = true) text ->
  adjacent (no_pair SPACE SPACE) p text = true ->
  (b = true -> p = SPACE) ->
  sub_ws_from b text = text.
Proof.
  intros H. revert b p. induction H as [|c rest Hc _ IH]; intros b p; [done|].
  cbn. intros [Hpc Hadj]%andb_true_iff Hb.
  destruct (is_space c) eqn:Hs.
  - assert (c = SPACE) as ->
      by (unfold plain_space in Hc; rewrite Hs in Hc; by apply N.eqb_eq in Hc).
    destruct b.
    + rewrite (Hb eq_refl) in Hpc. done.
    + f_equal. by apply (IH true SPACE).
  - f_equal. by apply (IH false c).
Qed.

(** *** Stripping *)

Lemma lstrip_fixed p text :
  (forall c, head text = Some c -> p c = false) -> lstrip p text = text.
Proof.
  destruct text as [|c rest]; [done|]. intros H. cbn.
  by rewrite (H c eq_refl).
Qed.

Lemma strip_fixed p text :
  (forall c, head text = Some c -> p c = false) ->
  (forall c, last text = Some c -> p c = false) ->
  strip p text = text.
Proof.
  intros Hh Hl. unfold strip, rstrip. rewrite (lstrip_fixed p text Hh).
  rewrite lstrip_fixed; [apply reverse_involutive|].
  intros c. rewrite head_reverse. apply Hl.
Qed.

(** *** The slash step *)

Lemma edge_not_space text :
  (forall c, head text = Some c -> edge_char c = true) ->
  forall old, head old = Some SPACE -> starts_with old text = false.
Proof.
  intros Hh [|a old] [= ->]. destruct text as [|c rest]; [done|].
  cbn [starts_with]. specialize (Hh c eq_refl).
  destruct (N.eqb_spec SPACE c) as [<-|]; done.
Qed.

Lemma slash_step_spec text :
  Forall (fun c => is_ascii c = true) text ->
  Forall (fun c => plain_space c = true) text ->
  pairs (no_pair SPACE SPACE) text = true ->
  (forall c, head text = Some c -> edge_char c = true) ->
  (forall c, last text = Some c -> edge_char c = true) ->
  Forall (fun c => is_ascii c = true) (slash_step text)
  /\ Forall (fun c => plain_space c = true) (slash_step text)
  /\ pairs (no_pair SPACE SPACE) (slash_step text) = true
  /\ pairs (no_pair SPACE SLASH) (slash_step text) = true
  /\ pairs (no_pair SLASH SPACE) (slash_step text) = true
  /\ head (slash_step text) = head text
  /\ last (slash_step text) = last text.
Proof.
  intros Hascii Hplain Hsingle Hhead Hlast. unfold slash_step.
  change (lit "/") with [SLASH].
  change (lit " / ") with [SPACE; SLASH; SPACE].
  change (lit " /") with [SPACE; SLASH].
  change (lit "/ ") with [SLASH; SPACE].
  set (t1 := replace [SPACE; SLASH; SPACE] [SLASH] text).
  set (t2 := replace [SPACE; SLASH] [SLASH] t1).
  set (t3 := replace [SLASH; SPACE] [SLASH] t2).
  assert (Hnot_space : forall t : pystr,
            (forall c, last t = Some c -> edge_char c = true) ->
            last t <> Some SPACE).
  { intros t Ht Hs. by specialize (Ht _ Hs). }
  (* first replacement *)
  assert (H1h : head t1 = head text).
  { subst t1. rewrite (head_replace [SPACE; SLASH; SPACE] SPACE SPACE SLASH eq_refl eq_refl).
    by rewrite (edge_not_space text Hhead). }
  assert (H1l : last t1 = last text).
  { subst t1. apply (last_replace [SPACE; SLASH; SPACE] SPACE SPACE SLASH eq_refl eq_refl).
    right. by apply Hnot_space. }
  assert (H1s : pairs (no_pair SPACE SPACE) t1 = true).
  { subst t1.
    apply (replace_pairs [SPACE; SLASH; SPACE] SPACE SPACE SLASH eq_refl eq_refl
             (no_pair SPACE SPACE) (no_pair SPACE SPACE)) with (p0 := NUL);
      try done; intros; char_cases. }
  (* second replacement *)
  assert (H2h : head t2 = head text).
  { subst t2. rewrite (head_replace [SPACE; SLASH] SPACE SLASH SLASH eq_refl eq_refl).
    rewrite edge_not_space; [done| |done]. by rewrite H1h. }
  assert (H2l : last t2 = last text).
  { subst t2. rewrite <- H1l.
    apply (last_replace [SPACE; SLASH] SPACE SLASH SLASH eq_refl eq_refl). by left. }
  assert (H2s : pairs (no_pair SPACE SPACE) t2 = true).
  { subst t2.
    apply (replace_pairs [SPACE; SLASH] SPACE SLASH SLASH eq_refl eq_refl
             (no_pair SPACE SPACE) (no_pair SPACE SPACE)) with (p0 := NUL);
      try done; intros; char_cases. }
  assert (H2b : pairs (no_pair SPACE SLASH) t2 = true).
  { subst t2.
    apply (replace_pairs [SPACE; SLASH] SPACE SLASH SLASH eq_refl eq_refl
             (no_pair SPACE SPACE) (no_pair SPACE SLASH)) with (p0 := NUL);
      try done; intros; char_cases. }
  (* third replacement *)
  assert (H3h : head t3 = head text).
  { subst t3. rewrite (head_replace [SLASH; SPACE] SLASH SPACE SLASH eq_refl eq_refl).
    destruct (starts_with _ t2) eqn:Hs; [|done].
    rewrite <- H2h. symmetry.
    by apply (starts_with_head [SLASH; SPACE]). }
  assert (H3l : last t3 = last text).
  { subst t3. rewrite <- H2l.
    apply (last_replace [SLASH; SPACE] SLASH SPACE SLASH eq_refl eq_refl).
    right. apply Hnot_space. by rewrite H2l. }
  assert (H3s : pairs (no_pair SPACE SPACE) t3 = true).
  { subst t3.
    apply (replace_pairs [SLASH; SPACE] SLASH SPACE SLASH eq_refl eq_refl
             (no_pair SPACE SPACE) (no_pair SPACE SPACE)) with (p0 := NUL);
      try done; intros; char_cases. }
  assert (H3b : pairs (no_pair SPACE SLASH) t3 = true).
  { subst t3.
    apply (replace_pairs [SLASH; SPACE] SLASH SPACE SLASH eq_refl eq_refl
             (no_pair SPACE SLASH) (no_pair SPACE SLASH)) with (p0 := NUL);
      try done; intros; char_cases. }
  assert (H3a : pairs (no_pair SLASH SPACE) t3 = true).
  { subst t3.
    apply (replace_pairs [SLASH; SPACE] SLASH SPACE SLASH eq_refl eq_refl
             (no_pair SPACE SPACE) (no_pair SLASH SPACE)) with (p0 := NUL);
      try done; intros; char_cases. }
  repeat split; try done.
  - subst t3 t2 t1.
    do 3 (apply Forall_replace; [done|]); done.
  - subst t3 t2 t1.
    do 3 (apply Forall_replace; [done|]); done.
Qed.

(** *** Canonical text is a fixed point *)

Lemma edge_char_inv c :
  edge_char c = true ->
  is_space c = false /\ in_chars [DQUOTE] c = false
  /\ in_chars [SQUOTE] c = false.
Proof.
  unfold edge_char, in_chars. cbn [existsb].
  rewrite andb_true_iff, !negb_true_iff, !orb_false_r.
  intros [-> [-> ->]%orb_false_iff]. done.
Qed.

Lemma ascii_not_dash text d :
  128 <= d ->
  Forall (fun c => is_ascii c = true) text -> Forall (fun c => c <> d) text.
Proof.
  intros Hd H. eapply Forall_impl; [exact H|]. intros c Hc%N.ltb_lt. lia.
Qed.

Lemma dash_step_ascii text :
  Forall (fun c => is_ascii c = true) text -> dash_step text = text.
Proof.
  intros H. unfold dash_step. cbn [fold_left].
  change (lit "-") with [HYPHEN].
  rewrite (replace_absent EN_DASH [] _ text);
    [|apply ascii_not_dash; [unfold EN_DASH; lia|done]].
  rewrite (replace_absent EM_DASH [] _ text);
    [|apply ascii_not_dash; [unfold EM_DASH; lia|done]].
  apply (replace_absent MINUS_SIGN [] _ text).
  apply ascii_not_dash; [unfold MINUS_SIGN; lia|done].
Qed.

Section CanonicalFacts.

Variable table : char -> pystr.

Lemma unidecode_ascii_fixed text :
  Forall (fun c => is_ascii c = true) text -> unidecode table text = text.
Proof.
  unfold unidecode. induction 1 as [|c rest Hc _ IH]; [done|].
  cbn. by rewrite Hc, IH.
Qed.

Lemma canonical_fixed text :
  canonical text -> normalize table (PyStr text) = text.
Proof.
  intros [Hascii Hlow Hplain Hsingle Hbefore Hafter Hhead Hlast].
  unfold normalize. cbn [py_str].
  assert (Hws : sub_ws text = text).
  { apply (sub_ws_from_fixed false NUL); [done| |done].
    by rewrite (adjacent_pairs _ NUL). }
  assert (Hstrip : forall p,
            (forall c, edge_char c = true -> p c = false) ->
            strip p text = text).
  { intros p Hp. apply strip_fixed; intros c Hc; apply Hp; eauto. }
  assert (Htrim : trim_step text = text).
  { unfold trim_step, strip_ws, strip_chars.
    rewrite !Hstrip;
      [done|intros c Hc; by apply edge_char_inv in Hc as (? & ? & ?)..]. }
  assert (Hslash : slash_step text = text).
  { unfold slash_step.
    change (lit " / ") with [SPACE; SLASH; SPACE].
    change (lit " /") with [SPACE; SLASH].
    change (lit "/ ") with [SLASH; SPACE].
    rewrite (replace_no_pair SPACE SLASH _ _ NUL text);
      [|by rewrite (adjacent_pairs _ NUL)].
    rewrite (replace_no_pair SPACE SLASH _ _ NUL text);
      [|by rewrite (adjacent_pairs _ NUL)].
    apply (replace_no_pair SLASH SPACE _ _ NUL text).
    by rewrite (adjacent_pairs _ NUL). }
  rewrite Hws, Htrim, Hslash, (dash_step_ascii text Hascii).
  by rewrite (unidecode_ascii_fixed text Hascii).
Qed.

(** The canonical key of ASCII text that, once its whitespace is stripped,
    neither begins nor ends with a straight quote. *)
Lemma normalize_canonical text :
  Forall (fun c => is_ascii c = true) text ->
  (forall c, head (strip_ws (sub_ws text)) = Some c ->
             in_chars [DQUOTE; SQUOTE] c = false) ->
  (forall c, last (strip_ws (sub_ws text)) = Some c ->
             in_chars [DQUOTE; SQUOTE] c = false) ->
  canonical (normalize table (PyStr text)).
Proof.
  intros Hascii Hqh Hql. unfold normalize. cbn [py_str].
  set (w := sub_ws text) in *.
  destruct (strip_spec is_space w) as (pre & post & Hw & _ & _ & Hsh & Hsl).
  fold strip_ws in Hw, Hsh, Hsl. set (t := strip_ws w) in *.
  assert (Hhead : forall c, head t = Some c -> edge_char c = true).
  { intros c Hc. unfold edge_char. by rewrite (Hsh c Hc), (Hqh c Hc). }
  assert (Hlast : forall c, last t = Some c -> edge_char c = true).
  { intros c Hc. unfold edge_char. by rewrite (Hsl c Hc), (Hql c Hc). }
  assert (Htrim : trim_step w = t).
  { unfold trim_step. fold t. unfold strip_chars.
    rewrite (strip_fixed (in_chars [DQUOTE]) t).
    - apply strip_fixed; intros c Hc.
      + by apply Hhead, edge_char_inv in Hc as (? & ? & ?).
      + by apply Hlast, edge_char_inv in Hc as (? & ? & ?).
    - intros c Hc. by apply Hhead, edge_char_inv in Hc as (? & ? & ?).
    - intros c Hc. by apply Hlast, edge_char_inv in Hc as (? & ? & ?). }
  assert (Hwa : Forall (fun c => is_ascii c = true) w)
    by (by apply sub_ws_from_ascii).
  assert (Hwp : Forall (fun c => plain_space c = true) w)
    by apply sub_ws_from_plain.
  assert (Hwsingle : pairs (no_pair SPACE SPACE) w = true)
    by apply sub_ws_single.
  rewrite Hw in Hwa, Hwp, Hwsingle.
  apply Forall_app in Hwa as [_ [Hta _]%Forall_app].
  apply Forall_app in Hwp as [_ [Htp _]%Forall_app].
  apply pairs_app in Hwsingle as [_ [Hts _]%pairs_app].
  rewrite Htrim.
  destruct (slash_step_spec t Hta Htp Hts Hhead Hlast)
    as (Ha & Hp & Hs & Hb & Haf & Hh & Hl).
  rewrite (dash_step_ascii _ Ha), (unidecode_ascii_fixed _ Ha).
  set (u := slash_step t) in *. split.
  - unfold lower. apply Forall_fmap. eapply Forall_impl; [exact Ha|].
    intros c. apply lower_char_ascii.
  - apply lower_idem.
  - unfold lower. apply Forall_fmap. eapply Forall_impl; [exact Hp|].
    intros c Hc. cbn. by rewrite lower_char_plain.
  - rewrite pairs_lower; [done|unfold SPACE; lia..].
  - rewrite pairs_lower; [done|unfold SPACE; lia|unfold SLASH; lia].
  - rewrite pairs_lower; [done|unfold SLASH; lia|unfold SPACE; lia].
  - intros c. rewrite head_lower, Hh.
    destruct (head t) as [c'|] eqn:Ht; [|done]. intros [= <-].
    rewrite lower_char_edge. by apply Hhead.
  - intros c. rewrite last_lower, Hl.
    destruct (last t) as [c'|] eqn:Ht; [|done]. intros [= <-].
    rewrite lower_char_edge. by apply Hlast.
Qed.

(** Two passes of [normalize] give what one pass gives on every ASCII text
    that, once whitespace is collapsed and stripped, neither begins nor
    ends with a straight quote. *)
Theorem normalize_idempotent_on_plain_ascii text :
  Forall (fun c => is_ascii c = true) text ->
  (forall c, head (strip_ws (sub_ws text)) = Some c ->
             in_chars [DQUOTE; SQUOTE] c = false) ->
  (forall c, last (strip_ws (sub_ws text)) = Some c ->
             in_chars [DQUOTE; SQUOTE] c = false) ->
  normalize table (PyStr (normalize table (PyStr text)))
  = normalize table (PyStr text).
Proof.
  intros Hascii Hqh Hql. by apply canonical_fixed, normalize_canonical.
Qed.

End CanonicalFacts.

Lemma forallb_ascii text :
  forallb is_ascii text = true -> Forall (fun c => is_ascii c = true) text.
Proof.
  induction text as [|c rest IH]; cbn; [done|].
  intros [? ?]%andb_true_iff. constructor; auto.
Qed.

Lemma normalize_idempotent_witness :
  normalize unidecode_sample (PyStr (lit "  Omega 3 / 6 (EPA/ DHA)  "))
  = lit "omega 3/6 (epa/dha)"
  /\ normalize unidecode_sample
       (PyStr (normalize unidecode_sample
                 (PyStr (lit "  Omega 3 / 6 (EPA/ DHA)  "))))
     = normalize unidecode_sample (PyStr (lit "  Omega 3 / 6 (EPA/ DHA)  ")).
Proof.
  split; [reflexivity|].
  apply (normalize_idempotent_on_plain_ascii unidecode_sample).
  - by apply forallb_ascii.
  - intros c [= <-]. reflexivity.
  - intros c [= <-]. reflexivity.
Defined.

(** * Further properties of the normaliser *)

(** ** Blank text *)

Lemma lstrip_all p text :
  Forall (fun c => p c = true) text -> lstrip p text = [].
Proof. induction 1 as [|c rest Hc _ IH]; cbn; [done|]. by rewrite Hc. Qed.

Lemma strip_nil_iff p text :
  strip p text = [] <-> Forall (fun c => p c = true) text.
Proof.
  split.
  - intros H. destruct (strip_spec p text) as (pre & post & Heq & ? & ? & _).
    rewrite Heq, H. apply Forall_app. split; [done|]. by apply Forall_app.
  - intros H. unfold strip. by rewrite (lstrip_all p text H).
Qed.

Lemma sub_ws_from_blank b text :
  Forall (fun c => is_space c = true) text ->
  Forall (fun c => is_space c = true) (sub_ws_from b text).
Proof.
  intros H. revert b. induction H as [|c rest Hc _ IH]; intros b; cbn;
    [done|].
  rewrite Hc. destruct b; [apply IH|]. constructor; [done|apply IH].
Qed.

Lemma forallb_Forall (p : char -> bool) text :
  forallb p text = true -> Forall (fun c => p c = true) text.
Proof.
  induction text as [|c rest IH]; cbn; [done|].
  intros [? ?]%andb_true_iff. constructor; auto.
Qed.

Section BlankFacts.

Variable table : char -> pystr.
Variable re_other : pystr -> option (pystr -> bool).

(** Text made of whitespace only, of any kind and length, has the empty
    canonical key. *)
Theorem normalize_blank text :
  Forall (fun c => is_space c = true) text ->
  normalize table (PyStr text) = [].
Proof.
  intros H. unfold normalize. cbn [py_str].
  assert (Hs : strip_ws (sub_ws text) = [])
    by (by apply strip_nil_iff, sub_ws_from_blank).
  unfold trim_step. by rewrite Hs.
Qed.

(** A query made of whitespace only returns no row, on every frame and
    alias index, and never raises: no pattern is compiled for it. *)
Theorem search_blank_query df alias_df query :
  Forall (fun c => is_space c = true) query ->
  search_ingredients table re_other df alias_df query = Some [].
Proof.
  intros H. unfold search_ingredients.
  assert (Hn : normalize table (PyStr query) = []).
  { unfold normalize. cbn [py_str].
    assert (Hs : strip_ws (sub_ws query) = [])
      by (by apply strip_nil_iff, sub_ws_from_blank).
    unfold trim_step. by rewrite Hs. }
  by rewrite Hn.
Qed.

End BlankFacts.

Lemma normalize_blank_witness :
  normalize unidecode_sample (PyStr [SPACE; 9; 160; NEWLINE; 12288]) = [].
Proof.
  apply (normalize_blank unidecode_sample). by apply forallb_Forall.
Defined.

Lemma search_blank_query_witness :
  search_ingredients unidecode_sample re_none sample_df sample_alias
    [SPACE; 9; SPACE] = Some [].
Proof.
  apply (search_blank_query unidecode_sample re_none).
  by apply forallb_Forall.
Defined.

(** ** Whitespace runs *)

(** After line 31 the only whitespace left is the plain space, never two
    in a row, and a second application changes nothing. *)
Theorem sub_ws_tidy text :
  Forall (fun c => plain_space c = true) (sub_ws text)
  /\ pairs (no_pair SPACE SPACE) (sub_ws text) = true
  /\ sub_ws (sub_ws text) = sub_ws text.
Proof.
  split; [apply sub_ws_from_plain|]. split; [apply sub_ws_single|].
  apply (sub_ws_from_fixed false NUL); [apply sub_ws_from_plain| |done].
  apply (sub_ws_from_single false).
Qed.

(** ** Dashes *)

Lemma replace_single a n text :
  replace [a] [n] text = map (fun c => if c =? a then n else c) text.
Proof.
  induction text as [|c rest IH]; [done|]. rewrite replace_cons.
  cbn [starts_with length pred map]. rewrite drop_0.
  rewrite andb_true_r, (N.eqb_sym a c), IH. by destruct (c =? a).
Qed.

(** Lines 34-35 replace each en dash, em dash and minus sign by a hyphen
    and leave every other character in its place. *)
Theorem dash_step_map text : dash_step text = map dash_char text.
Proof.
  unfold dash_step. cbn [fold_left]. change (lit "-") with [HYPHEN].
  rewrite !replace_single, !map_map. apply map_ext. intros c.
  unfold dash_char.
  destruct (N.eqb_spec c EN_DASH) as [->|?]; [done|].
  destruct (N.eqb_spec c EM_DASH) as [->|?]; [done|].
  by destruct (N.eqb_spec c MINUS_SIGN) as [->|?].
Qed.

(** ** Letter case *)

Lemma sub_ws_from_lower b text :
  sub_ws_from b (lower text) = lower (sub_ws_from b text).
Proof.
  revert b. induction text as [|c rest IH]; intros b; [done|].
  cbn [lower map sub_ws_from]. rewrite lower_char_space.
  fold (lower rest). rewrite !IH.
  destruct (is_space c); [by destruct b|done].
Qed.

Lemma lstrip_lower p text :
  (forall c, p (lower_char c) = p c) ->
  lstrip p (lower text) = lower (lstrip p text).
Proof.
  intros Hp. induction text as [|c rest IH]; [done|].
  cbn [lower map lstrip]. rewrite Hp. fold (lower rest).
  by destruct (p c).
Qed.

Lemma lower_reverse text : lower (reverse text) = reverse (lower text).
Proof. unfold lower. apply (fmap_reverse lower_char). Qed.

Lemma strip_lower p text :
  (forall c, p (lower_char c) = p c) ->
  strip p (lower text) = lower (strip p text).
Proof.
  intros Hp. unfold strip, rstrip.
  by rewrite lstrip_lower, <- lower_reverse, lstrip_lower, lower_reverse.
Qed.

Lemma in_chars_lower a c :
  ~ 65 <= a <= 122 -> in_chars [a] (lower_char c) = in_chars [a] c.
Proof. intros Ha. unfold in_chars. cbn. by rewrite lower_char_eqb. Qed.

Lemma trim_step_lower text : trim_step (lower text) = lower (trim_step text).
Proof.
  unfold trim_step, strip_ws, strip_chars.
  rewrite (strip_lower is_space), (strip_lower (in_chars [DQUOTE])),
    (strip_lower (in_chars [SQUOTE])); [done|intros c..].
  - apply in_chars_lower. unfold SQUOTE. lia.
  - apply in_chars_lower. unfold DQUOTE. lia.
  - apply lower_char_space.
Qed.

Lemma starts_with_lower old text :
  no_letter old -> starts_with old (lower text) = starts_with old text.
Proof.
  intros Hold. revert text.
  induction Hold as [|a old Ha _ IH]; intros [|c rest]; [done..|].
  cbn [lower map starts_with]. fold (lower rest).
  by rewrite IH, (N.eqb_sym a), lower_char_eqb, (N.eqb_sym c).
Qed.

Lemma replace_from_lower old new k text :
  no_letter old -> lower new = new ->
  replace_from old new k (lower text) = lower (replace_from old new k text).
Proof.
  intros Hold Hnew. revert k.
  induction text as [|c rest IH]; intros k; [done|].
  change (lower (c :: rest)) with (lower_char c :: lower rest).
  cbn [replace_from]. destruct k as [|k]; [|apply IH].
  change (lower_char c :: lower rest) with (lower (c :: rest)).
  rewrite (starts_with_lower old (c :: rest) Hold), !IH.
  destruct (starts_with old (c :: rest)); [|done].
  rewrite <- Hnew at 1. unfold lower. by rewrite map_app.
Qed.

Lemma slash_step_lower text : slash_step (lower text) = lower (slash_step text).
Proof.
  unfold slash_step, replace.
  rewrite !replace_from_lower; try done;
    repeat constructor; unfold SPACE, SLASH; cbn; lia.
Qed.

Lemma strip_Forall (P : char -> Prop) p text :
  Forall P text -> Forall P (strip p text).
Proof.
  intros H. destruct (strip_spec p text) as (pre & post & Heq & _).
  rewrite Heq in H. by apply Forall_app in H as [_ [? _]%Forall_app].
Qed.

Lemma slash_step_ascii text :
  Forall (fun c => is_ascii c = true) text ->
  Forall (fun c => is_ascii c = true) (slash_step text).
Proof.
  intros H. unfold slash_step. change (lit "/") with [SLASH].
  do 3 (apply Forall_replace; [done|]). done.
Qed.

Section CaseFacts.

Variable table : char -> pystr.

Lemma normalize_ascii_steps text :
  Forall (fun c => is_ascii c = true) text ->
  normalize table (PyStr text)
  = lower (slash_step (trim_step (sub_ws text))).
Proof.
  intros H. unfold normalize. cbn [py_str].
  assert (Ha : Forall (fun c => is_ascii c = true)
                 (slash_step (trim_step (sub_ws text)))).
  { apply slash_step_ascii. unfold trim_step, strip_chars, strip_ws.
    do 3 apply strip_Forall. by apply sub_ws_from_ascii. }
  by rewrite (dash_step_ascii _ Ha), (unidecode_ascii_fixed table _ Ha).
Qed.

(** Two ASCII texts that differ only in the case of their letters have the
    same canonical key. *)
Theorem normalize_ignores_case text1 text2 :
  Forall (fun c => is_ascii c = true) text1 ->
  Forall (fun c => is_ascii c = true) text2 ->
  lower text1 = lower text2 ->
  normalize table (PyStr text1) = normalize table (PyStr text2).
Proof.
  intros H1 H2 Heq.
  assert (Hl : forall t, Forall (fun c => is_ascii c = true) t ->
            normalize table (PyStr t)
            = lower (slash_step (trim_step (sub_ws (lower t))))).
  { intros t Ht. rewrite (normalize_ascii_steps t Ht). unfold sub_ws.
    by rewrite sub_ws_from_lower, trim_step_lower, slash_step_lower,
         lower_idem. }
  by rewrite (Hl text1 H1), (Hl text2 H2), Heq.
Qed.

End CaseFacts.

Lemma normalize_ignores_case_witness :
  normalize unidecode_sample (PyStr (lit "Vitamina C"))
  = normalize unidecode_sample (PyStr (lit "VITAMINA c")).
Proof.
  apply (normalize_ignores_case unidecode_sample);
    [by apply forallb_ascii..|reflexivity].
Defined.

Section KeyFacts.

Variable table : char -> pystr.

(** The canonical key of an ASCII text that, once its whitespace is
    collapsed and stripped, neither begins nor ends with a straight quote:
    ASCII without capitals, single plain spaces, none of them next to a
    slash, and neither whitespace nor a straight quote at its ends. *)
Theorem key_of_plain_ascii_is_canonical text :
  Forall (fun c => is_ascii c = true) text ->
  (forall c, head (strip_ws (sub_ws text)) = Some c ->
             in_chars [DQUOTE; SQUOTE] c = false) ->
  (forall c, last (strip_ws (sub_ws text)) = Some c ->
             in_chars [DQUOTE; SQUOTE] c = false) ->
  canonical (normalize table (PyStr text)).
Proof. apply normalize_canonical. Qed.

(** Canonical text is its own canonical key, whatever the transliteration
    table. *)
Theorem canonical_key_is_fixed text :
  canonical text -> normalize table (PyStr text) = text.
Proof. apply canonical_fixed. Qed.

End KeyFacts.

Lemma canonical_sample : canonical (lit "omega 3/6 (epa/dha)").
Proof.
  split; try reflexivity.
  - by apply forallb_ascii.
  - by apply forallb_Forall.
  - by intros c [= <-].
  - by intros c [= <-].
Qed.

Lemma key_of_plain_ascii_is_canonical_witness :
  canonical (normalize unidecode_sample
               (PyStr (lit "  Omega 3 / 6 (EPA/ DHA)  "))).
Proof.
  apply (key_of_plain_ascii_is_canonical unidecode_sample).
  - by apply forallb_ascii.
  - intros c [= <-]. reflexivity.
  - intros c [= <-]. reflexivity.
Defined.

Lemma canonical_key_is_fixed_witness :
  normalize unidecode_sample (PyStr (lit "omega 3/6 (epa/dha)"))
  = lit "omega 3/6 (epa/dha)".
Proof.
  apply (canonical_key_is_fixed unidecode_sample), canonical_sample.
Defined.

(** * Further properties of the search *)

Lemma select_zip_mono {A} (l : list A) (s b : list bool) :
  (length l <= length b)%nat ->
  sublist (select l s) (select l (zip_with orb s b)).
Proof.
  revert s b. induction l as [|x l IH]; intros [|a s] [|y b]; cbn;
    try (intros; apply sublist_nil_l); [lia|].
  intros Hlen. assert (length l <= length b)%nat as Hl by lia.
  destruct a; cbn.
  - by apply sublist_skip, IH.
  - destruct y; [apply sublist_cons|]; by apply IH.
Qed.

Lemma zip_orb_false (s b : list bool) :
  (length s <= length b)%nat -> Forall (fun x => x = false) b ->
  zip_with orb s b = s.
Proof.
  revert b. induction s as [|a s IH]; intros [|y b]; cbn; try done; [lia|].
  intros Hlen [-> Hb]%Forall_cons. rewrite orb_false_r, IH; [done|lia|done].
Qed.

Section SearchFacts.

Variable table : char -> pystr.
Variable re_other : pystr -> option (pystr -> bool).

Lemma str_contains_compiled col q found :
  re_compile re_other q = Some found ->
  str_contains re_other col q
  = Some ((fun cell => from_option found false cell) <$> col).
Proof. intros H. unfold str_contains. by rewrite H. Qed.

Lemma mask_ing_length df q a :
  mask_ing re_other df q = Some a -> length a = length (rows df).
Proof.
  unfold mask_ing, str_contains.
  destruct (re_compile re_other q); [|done]. intros [= <-].
  by rewrite !length_fmap.
Qed.

Lemma mask_cas_length df q m :
  mask_cas re_other df q = Some m ->
  forall bits, m = Series bits -> length bits = length (rows df).
Proof.
  unfold mask_cas, str_contains. destruct (has_norm_cas df).
  - destruct (re_compile re_other q); [|done]. intros [= <-] bits [= <-].
    by rewrite !length_fmap.
  - by intros [= <-] bits.
Qed.

Lemma mask_alias_length df alias_df q m :
  mask_alias re_other df alias_df q = Some m ->
  forall bits, m = Series bits -> length bits = length (rows df).
Proof.
  unfold mask_alias, str_contains. destruct alias_df as [|a0 al].
  - by intros [= <-] bits.
  - destruct (re_compile re_other q); [|done]. cbn [mbind option_bind].
    destruct (0 <? _)%nat; intros [= <-] bits; [|done]. intros [= <-].
    unfold isin. by rewrite !length_fmap.
Qed.

Lemma mask_ing_compiled df q found :
  re_compile re_other q = Some found ->
  exists bits,
    mask_ing re_other df q = Some bits /\
    forall i r, rows df !! i = Some r ->
      (bits !! i = Some true <-> found (norm_ingredient r) = true).
Proof.
  intros H. unfold mask_ing. rewrite (str_contains_compiled _ q found H).
  eexists. split; [done|]. intros i r Hr.
  rewrite !list_lookup_fmap, Hr. cbn. split; [by intros [= ->]|by intros ->].
Qed.

Lemma mask_cas_compiled df q found :
  re_compile re_other q = Some found ->
  exists m,
    mask_cas re_other df q = Some m /\
    forall i r, rows df !! i = Some r ->
      (mask_bit m i <->
       has_norm_cas df = true /\
       exists k, norm_cas r = Some k /\ found k = true).
Proof.
  intros H. unfold mask_cas. destruct (has_norm_cas df).
  - rewrite (str_contains_compiled _ q found H). cbn. eexists.
    split; [done|]. intros i r Hr. cbn.
    rewrite !list_lookup_fmap, Hr. cbn.
    destruct (norm_cas r) as [k|]; cbn.
    + split; [intros [= Hk]; eauto|]. by intros [_ (k' & [= <-] & ->)].
    + split; [done|]. by intros [_ (k' & [=] & _)].
  - exists ScalarFalse. split; [done|]. intros i r _. cbn.
    split; [done|]. by intros [[=] _].
Qed.

Lemma mask_alias_compiled df alias_df q found :
  re_compile re_other q = Some found ->
  exists m,
    mask_alias re_other df alias_df q = Some m /\
    forall i r, rows df !! i = Some r ->
      (mask_bit m i <->
       exists a, a ∈ alias_df /\ found (norm_alias a) = true /\
                 norm_official a = norm_ingredient r).
Proof.
  intros H. unfold mask_alias. destruct alias_df as [|a0 al].
  - exists ScalarFalse. split; [done|]. intros i r _. cbn.
    split; [done|]. by intros (a & ?%elem_of_nil & _).
  - rewrite (str_contains_compiled _ q found H). cbn [mbind option_bind].
    set (all := a0 :: al). set (hits := _ <$> (_ <$> all)).
    assert (Hbit : forall j a, all !! j = Some a ->
              (hits !! j = Some true <-> found (norm_alias a) = true)).
    { intros j a Ha. subst hits. rewrite !list_lookup_fmap, Ha. cbn.
      split; [by intros [= ->]|by intros ->]. }
    assert (Hhit : forall k, k ∈ (norm_official <$> select all hits) <->
              exists a, a ∈ all /\ found (norm_alias a) = true /\
                        norm_official a = k).
    { intros k. rewrite list_elem_of_fmap. split.
      - intros (a & -> & (j & Ha & Hj)%elem_of_select). exists a.
        split; [by eapply list_elem_of_lookup_2|]. split; [|done].
        by apply (Hbit j).
      - intros (a & [j Ha]%list_elem_of_lookup_1 & Hf & <-). exists a.
        split; [done|]. apply elem_of_select. exists j. split; [done|].
        by apply (Hbit j a). }
    clearbody hits.
    destruct (0 <? length _)%nat eqn:Hlen.
    + eexists. split; [done|]. intros i r Hr. cbn. unfold isin.
      rewrite !list_lookup_fmap, Hr. cbn. split.
      * intros [= Hin%bool_decide_eq_true]. by apply Hhit, elem_of_unique.
      * intros Ha. f_equal. by apply bool_decide_eq_true, elem_of_unique, Hhit.
    + exists ScalarFalse. split; [done|]. intros i r _. cbn.
      split; [done|]. intros Ha.
      apply Hhit, elem_of_unique in Ha. apply Nat.ltb_ge in Hlen.
      destruct (unique _); [by apply elem_of_nil in Ha|cbn in Hlen; lia].
Qed.

(** Whatever the pattern the canonical query compiles to: the search
    returns the rows whose name key the pattern is found in, those whose
    CAS key it is found in, and those whose name key is the official key of
    an alias entry in whose alias key it is found; no other row. *)
Theorem search_matches df alias_df query found :
  normalize table (PyStr query) <> [] ->
  re_compile re_other (normalize table (PyStr query)) = Some found ->
  exists res,
    search_ingredients table re_other df alias_df query = Some res /\
    forall r, r ∈ res <->
      exists i, rows df !! i = Some r /\
        (found (norm_ingredient r) = true
         \/ (has_norm_cas df = true /\
             exists k, norm_cas r = Some k /\ found k = true)
         \/ (exists a, a ∈ alias_df /\ found (norm_alias a) = true /\
                       norm_official a = norm_ingredient r)).
Proof.
  intros Hne Hc. unfold search_ingredients.
  destruct (normalize table (PyStr query)) as [|c0 nq]; [congruence|].
  set (norm_q := c0 :: nq) in *.
  destruct (mask_ing_compiled df norm_q found Hc) as (a & Ha & Hia).
  destruct (mask_cas_compiled df norm_q found Hc) as (c & Hcm & Hic).
  destruct (mask_alias_compiled df alias_df norm_q found Hc)
    as (d & Hd & Hid).
  pose proof (mask_ing_length _ _ _ Ha) as Hla.
  pose proof (mask_cas_length _ _ _ Hcm) as Hlc.
  pose proof (mask_alias_length _ _ _ _ Hd) as Hld.
  rewrite Ha, Hcm, Hd. cbn [mbind option_bind]. eexists. split; [done|].
  assert (Hlc' : forall bits, c = Series bits -> length bits = length a)
    by (intros; rewrite Hla; eauto).
  assert (Hld' : forall bits, d = Series bits ->
            length bits = length (series_or a c))
    by (intros; rewrite series_or_length, Hla; eauto).
  intros r. rewrite elem_of_select. split.
  - intros (i & Hr & Hbit). exists i. split; [done|].
    destruct (proj1 (series_or_lookup _ _ i Hld') Hbit) as [Hac|Hal].
    + destruct (proj1 (series_or_lookup _ _ i Hlc') Hac) as [Hi|Hi].
      * left. by apply (Hia i).
      * right. left. by apply (Hic i).
    + right. right. by apply (Hid i).
  - intros (i & Hr & Hsel). exists i. split; [done|].
    apply series_or_lookup; [done|].
    destruct Hsel as [Hsel|[Hsel|Hsel]].
    + left. apply series_or_lookup; [done|]. left. by apply (Hia i r).
    + left. apply series_or_lookup; [done|]. right. by apply (Hic i r).
    + right. by apply (Hid i r).
Qed.

End SearchFacts.

Lemma search_matches_witness :
  exists res,
    search_ingredients unidecode_sample re_none sample_df sample_alias
      (lit "Acido.Ascorbico") = Some res
    /\ forall r, r ∈ res <->
         exists i, rows sample_df !! i = Some r /\
           (re_search [Lit 97; Lit 99; Lit 105; Lit 100; Lit 111; AnyChar;
                       Lit 97; Lit 115; Lit 99; Lit 111; Lit 114; Lit 98;
                       Lit 105; Lit 99; Lit 111] (norm_ingredient r) = true
            \/ (has_norm_cas sample_df = true /\
                exists k, norm_cas r = Some k /\
                  re_search [Lit 97; Lit 99; Lit 105; Lit 100; Lit 111;
                             AnyChar; Lit 97; Lit 115; Lit 99; Lit 111;
                             Lit 114; Lit 98; Lit 105; Lit 99; Lit 111] k
                  = true)
            \/ (exists a, a ∈ sample_alias /\
                  re_search [Lit 97; Lit 99; Lit 105; Lit 100; Lit 111;
                             AnyChar; Lit 97; Lit 115; Lit 99; Lit 111;
                             Lit 114; Lit 98; Lit 105; Lit 99; Lit 111]
                    (norm_alias a) = true /\
                  norm_official a = norm_ingredient r)).
Proof.
  apply (search_matches unidecode_sample re_none sample_df sample_alias
           (lit "Acido.Ascorbico")); [discriminate|reflexivity].
Defined.

Section SearchLaws.

Variable table : char -> pystr.
Variable re_other : pystr -> option (pystr -> bool).

(** On a query whose canonical form is not empty and has none of the
    special characters of patterns, the search returns, and a row is
    returned exactly when the query is contained in its name key or in its
    CAS key, or its name key is the official key of an alias entry whose
    alias key contains the query. *)
Theorem search_by_containment df alias_df query :
  normalize table (PyStr query) <> [] ->
  literal (normalize table (PyStr query)) = true ->
  exists res,
    search_ingredients table re_other df alias_df query = Some res /\
    forall r, r ∈ res <->
      exists i, rows df !! i = Some r /\
        (substring (normalize table (PyStr query)) (norm_ingredient r)
         \/ (has_norm_cas df = true /\
             exists k, norm_cas r = Some k /\
                       substring (normalize table (PyStr query)) k)
         \/ (exists a, a ∈ alias_df /\
               substring (normalize table (PyStr query)) (norm_alias a) /\
               norm_official a = norm_ingredient r)).
Proof. apply search_literal. Qed.

(** Aliases only add rows: what the search returns without alias index is
    a subsequence of what it returns with one. *)
Theorem search_alias_monotone df alias_df query res :
  search_ingredients table re_other df alias_df query = Some res ->
  exists res0,
    search_ingredients table re_other df [] query = Some res0
    /\ sublist res0 res.
Proof.
  unfold search_ingredients.
  destruct (normalize table (PyStr query)) as [|c0 nq].
  - intros [= <-]. by exists [].
  - destruct (mask_ing re_other df (c0 :: nq)) as [a|] eqn:Ha; [|done].
    destruct (mask_cas re_other df (c0 :: nq)) as [c|] eqn:Hc; [|done].
    destruct (mask_alias re_other df alias_df (c0 :: nq)) as [d|] eqn:Hd;
      [|done].
    cbn. intros [= <-]. eexists. split; [done|].
    destruct d as [|bits]; [done|]. cbn [series_or].
    apply select_zip_mono.
    by rewrite (mask_alias_length _ _ _ _ _ Hd bits eq_refl).
Qed.

(** An alias entry whose official key is the name key of no row is inert:
    with such entries only, the search does what it does without alias
    index. *)
Theorem search_inert_aliases df alias_df query :
  (forall a r, a ∈ alias_df -> r ∈ rows df ->
               norm_official a <> norm_ingredient r) ->
  search_ingredients table re_other df alias_df query
  = search_ingredients table re_other df [] query.
Proof.
  intros Hinert. unfold search_ingredients.
  destruct (normalize table (PyStr query)) as [|c0 nq]; [done|].
  destruct (mask_ing re_other df (c0 :: nq)) as [a|] eqn:Ha; [|done].
  destruct (mask_cas re_other df (c0 :: nq)) as [c|] eqn:Hc; [|done].
  cbn [mbind option_bind].
  pose proof (mask_ing_length _ _ _ _ Ha) as Hla.
  pose proof (mask_cas_length _ _ _ _ Hc) as Hlc.
  unfold mask_ing, str_contains in Ha.
  destruct (re_compile re_other (c0 :: nq)) as [found|] eqn:Hre; [|done].
  unfold mask_alias, str_contains. rewrite Hre.
  destruct alias_df as [|a0 al]; [done|]. cbn [mbind option_bind].
  destruct (0 <? _)%nat; [|done]. cbn [mbind option_bind series_or].
  f_equal. f_equal. apply zip_orb_false.
  - unfold isin. rewrite !length_fmap, series_or_length; [lia|].
    intros bits Hb. rewrite Hla. eauto.
  - unfold isin. apply Forall_fmap, Forall_fmap, Forall_forall.
    intros r Hr. cbv beta. apply bool_decide_eq_false.
    intros (a' & Heq & Hin)%elem_of_unique%list_elem_of_fmap.
    apply (Hinert a' r); [|done|done].
    eapply elem_of_sublist; [exact Hin|apply select_sublist].
Qed.

(** A row is found under its own name: on a frame built by [load_db], the
    text of an ingredient cell, used as query, returns the row of that
    cell, when its canonical form is not empty and has no special
    character. *)
Theorem search_finds_own_name file df alias_df i r name :
  load_db table file = Loaded df ->
  rows df !! i = Some r ->
  ingredient r = PyStr name ->
  normalize table (PyStr name) <> [] ->
  literal (normalize table (PyStr name)) = true ->
  exists res,
    search_ingredients table re_other df alias_df name = Some res
    /\ r ∈ res.
Proof.
  intros Hload Hr Hname Hne Hlit.
  destruct (search_literal table re_other df alias_df name Hne Hlit)
    as (res & Hres & Hin).
  exists res. split; [done|]. apply Hin. exists i. split; [done|]. left.
  assert (Hkey : norm_ingredient r = normalize table (ingredient r)).
  { destruct file as [sh|]; [|done]. cbn in Hload.
    destruct (sheet_has_ingredient sh); [|done]. injection Hload as <-.
    cbn in Hr. rewrite list_lookup_imap in Hr.
    destruct (sheet_rows sh !! i); [|done]. by injection Hr as <-. }
  rewrite Hkey, Hname. exists [], []. by rewrite app_nil_r.
Qed.

End SearchLaws.

Lemma search_by_containment_witness :
  exists res,
    search_ingredients unidecode_sample re_none sample_df sample_alias
      (lit "Acido Ascorbico") = Some res
    /\ forall r, r ∈ res <->
         exists i, rows sample_df !! i = Some r /\
           (substring (key_of "Acido Ascorbico") (norm_ingredient r)
            \/ (has_norm_cas sample_df = true /\
                exists k, norm_cas r = Some k /\
                          substring (key_of "Acido Ascorbico") k)
            \/ (exists a, a ∈ sample_alias /\
                  substring (key_of "Acido Ascorbico") (norm_alias a) /\
                  norm_official a = norm_ingredient r)).
Proof.
  apply (search_by_containment unidecode_sample re_none sample_df
           sample_alias (lit "Acido Ascorbico")); [discriminate|reflexivity].
Defined.

Lemma search_alias_monotone_witness :
  exists res res0,
    search_ingredients unidecode_sample re_none sample_df sample_alias
      (lit "ascorbico") = Some res
    /\ search_ingredients unidecode_sample re_none sample_df []
         (lit "ascorbico") = Some res0
    /\ length res = 1%nat /\ length res0 = 0%nat /\ sublist res0 res.
Proof.
  destruct (search_alias_monotone unidecode_sample re_none sample_df
              sample_alias (lit "ascorbico")
              (select (rows sample_df) [true; false; false]) eq_refl)
    as (res0 & Hres0 & Hsub).
  exists (select (rows sample_df) [true; false; false]), res0.
  split; [reflexivity|]. split; [exact Hres0|]. split; [reflexivity|].
  split; [|exact Hsub]. vm_compute in Hres0. by injection Hres0 as <-.
Defined.

Lemma search_inert_aliases_witness :
  search_ingredients unidecode_sample re_none sample_df sample_inert_alias
    (lit "Vit C")
  = search_ingredients unidecode_sample re_none sample_df [] (lit "Vit C").
Proof.
  apply (search_inert_aliases unidecode_sample re_none).
  intros a r Ha%list_elem_of_In Hr%list_elem_of_In.
  vm_compute in Ha, Hr.
  destruct Ha as [<-|[]]. destruct Hr as [<-|[<-|[<-|[]]]]; discriminate.
Defined.

Lemma search_finds_own_name_witness :
  exists res,
    search_ingredients unidecode_sample re_none sample_df sample_alias
      (lit "Vitamina C") = Some res
    /\ exists r, rows sample_df !! 0%nat = Some r /\ r ∈ res.
Proof.
  destruct (rows sample_df !! 0%nat) as [r|] eqn:Hr; [|discriminate Hr].
  destruct (search_finds_own_name unidecode_sample re_none
              (Some sample_sheet) sample_df sample_alias 0 r
              (lit "Vitamina C") eq_refl Hr)
    as (res & Hres & Hin).
  - vm_compute in Hr. by injection Hr as <-.
  - discriminate.
  - reflexivity.
  - exists res. split; [exact Hres|]. by exists r.
Defined.

(** * The batch of queries *)

Lemma split_lines_not_nil text : split_lines text <> [].
Proof.
  destruct text as [|c rest]; cbn; [done|].
  destruct (c =? NEWLINE); [done|]. by destruct (split_lines rest).
Qed.

Lemma split_lines_Forall (P : char -> Prop) text :
  Forall P text -> Forall (Forall P) (split_lines text).
Proof.
  induction 1 as [|c rest Hc _ IH]; cbn; [by repeat constructor|].
  destruct (c =? NEWLINE); [by constructor|].
  destruct (split_lines rest) as [|line lines]; [by repeat constructor|].
  apply Forall_cons in IH as [? ?]. by repeat constructor.
Qed.

Lemma split_lines_Forall_inv (P : char -> Prop) text :
  P NEWLINE -> Forall (Forall P) (split_lines text) -> Forall P text.
Proof.
  intros Hn. induction text as [|c rest IH]; cbn; [done|].
  destruct (N.eqb_spec c NEWLINE) as [->|Hc].
  - intros [_ ?]%Forall_cons. constructor; auto.
  - pose proof (split_lines_not_nil rest).
    destruct (split_lines rest) as [|line lines]; [done|].
    intros [[? ?]%Forall_cons ?]%Forall_cons. constructor; [done|].
    apply IH. by constructor.
Qed.

Lemma split_lines_no_newline text :
  Forall (Forall (fun c => c <> NEWLINE)) (split_lines text).
Proof.
  induction text as [|c rest IH]; cbn; [by repeat constructor|].
  destruct (N.eqb_spec c NEWLINE) as [->|Hc]; [by constructor|].
  destruct (split_lines rest) as [|line lines]; [by repeat constructor|].
  apply Forall_cons in IH as [? ?]. by repeat constructor.
Qed.

(** Every query of the batch is a line of the input without its leading
    and trailing whitespace: it is not blank, holds no newline, neither
    begins nor ends with whitespace, and stripping it again changes
    nothing. *)
Theorem user_queries_stripped input_text query :
  query ∈ user_queries input_text ->
  query <> []
  /\ (exists line, line ∈ split_lines input_text /\ query = strip_ws line)
  /\ Forall (fun c => c <> NEWLINE) query
  /\ strip_ws query = query.
Proof.
  unfold user_queries. rewrite list_elem_of_In, in_flat_map.
  intros (line & Hline%list_elem_of_In & Hq).
  assert (Heq : query = strip_ws line /\ query <> []).
  { destruct (strip_ws line) as [|c q]; [done|].
    destruct Hq as [<-|[]]. done. }
  destruct Heq as [-> Hne]. split; [done|]. split; [eauto|]. split.
  - apply strip_Forall.
    pose proof (split_lines_no_newline input_text) as Hall.
    rewrite Forall_forall in Hall. by apply Hall.
  - destruct (strip_spec is_space line) as (_ & _ & _ & _ & _ & Hh & Hl).
    by apply strip_fixed.
Qed.

Lemma user_queries_blank input_text :
  user_queries input_text = [] <-> strip_ws input_text = [].
Proof.
  rewrite (strip_nil_iff is_space input_text). unfold user_queries. split.
  - intros H. apply split_lines_Forall_inv; [done|].
    apply Forall_forall. intros line Hline.
    apply (strip_nil_iff is_space).
    destruct (strip_ws line) as [|c q] eqn:Hs; [done|].
    assert (Hin : In (c :: q) (flat_map
              (fun line => match strip_ws line with
                           | [] => []
                           | q => [q]
                           end) (split_lines input_text))).
    { apply in_flat_map. exists line. split; [by apply list_elem_of_In|].
      rewrite Hs. by left. }
    rewrite H in Hin. done.
  - intros H%split_lines_Forall.
    induction H as [|line lines Hline _ IH]; [done|].
    cbn [flat_map]. apply (strip_nil_iff is_space) in Hline.
    fold strip_ws in Hline. by rewrite Hline.
Qed.

(** The batch has no query exactly when the input is blank, that is, made
    of whitespace only. *)
Theorem user_queries_nil_iff input_text :
  user_queries input_text = [] <-> Forall (fun c => is_space c = true) input_text.
Proof.
  rewrite <- (strip_nil_iff is_space input_text). apply user_queries_blank.
Qed.

Section BatchFacts.

Variable table : char -> pystr.
Variable re_other : pystr -> option (pystr -> bool).

Lemma run_queries_spec df alias_df queries acc b :
  run_queries table re_other df alias_df queries acc = Some b ->
  exists found missing,
    results_found b = results_found acc ++ found
    /\ results_not_found b = results_not_found acc ++ missing
    /\ (length found + length missing = length queries)%nat
    /\ sublist found.*1 queries /\ sublist missing queries
    /\ (forall q m, (q, m) ∈ found ->
          search_ingredients table re_other df alias_df q = Some m
          /\ m <> [])
    /\ (forall q, q ∈ missing ->
          search_ingredients table re_other df alias_df q = Some [])
    /\ (forall q, q ∈ queries -> q ∈ found.*1 \/ q ∈ missing).
Proof.
  revert acc. induction queries as [|query rest IH]; intros acc; cbn.
  - intros [= <-]. exists [], []. rewrite !app_nil_r.
    split; [done|]. split; [done|]. split; [done|].
    split; [apply sublist_nil_l|]. split; [apply sublist_nil_l|].
    split; [by intros q m ?%elem_of_nil|].
    split; by intros q ?%elem_of_nil.
  - destruct (search_ingredients table re_other df alias_df query)
      as [matches|] eqn:Hs; [|done].
    cbn. intros (found & missing & Hf & Hm & Hlen & Hsf & Hsm & Hfs & Hms
                  & Hall)%IH.
    destruct matches as [|r matches]; cbn in Hf, Hm.
    + exists found, (query :: missing). rewrite <- app_assoc in Hm.
      split; [done|]. split; [done|]. split; [cbn; lia|].
      split; [by apply sublist_cons|]. split; [by apply sublist_skip|].
      split; [done|]. split.
      * intros q [->|?]%elem_of_cons; auto.
      * intros q [->|Hq]%elem_of_cons.
        -- right. apply elem_of_cons. by left.
        -- destruct (Hall q Hq); [by left|]. right. apply elem_of_cons.
           by right.
    + exists ((query, r :: matches) :: found), missing.
      rewrite <- app_assoc in Hf.
      split; [done|]. split; [done|]. split; [cbn; lia|].
      split; [by apply sublist_skip|]. split; [by apply sublist_cons|].
      split; [|split; [done|]].
      * intros q m [[= -> ->]|?]%elem_of_cons; auto.
      * intros q [->|Hq]%elem_of_cons.
        -- left. cbn. apply elem_of_cons. by left.
        -- destruct (Hall q Hq); [|by right]. left. cbn.
           apply elem_of_cons. by right.
Qed.

(** When the run completes, every query is in exactly one of the two
    lists, each list keeps the order of the queries, a query is listed as
    found with the rows its search returned, which are not none, and as
    not found when its search returned no row. *)
Theorem run_queries_partition df alias_df queries b :
  run_queries table re_other df alias_df queries
    {| results_found := []; results_not_found := [] |} = Some b ->
  (length (results_found b) + length (results_not_found b)
   = length queries)%nat
  /\ sublist (results_found b).*1 queries
  /\ sublist (results_not_found b) queries
  /\ (forall q m, (q, m) ∈ results_found b ->
        search_ingredients table re_other df alias_df q = Some m
        /\ m <> [])
  /\ (forall q, q ∈ results_not_found b ->
        search_ingredients table re_other df alias_df q = Some [])
  /\ (forall q, q ∈ queries ->
        q ∈ (results_found b).*1 \/ q ∈ results_not_found b)
  /\ (forall q, q ∈ (results_found b).*1 -> q ∉ results_not_found b).
Proof.
  intros (found & missing & Hf & Hm & Hlen & Hsf & Hsm & Hfs & Hms & Hall)
    %run_queries_spec.
  cbn in Hf, Hm. rewrite Hf, Hm. repeat split; try done.
  - by apply Hfs.
  - by eapply Hfs.
  - intros q ((q' & m) & -> & Hin)%list_elem_of_fmap Hq. cbn in Hq.
    destruct (Hfs _ _ Hin) as [Hs Hne]. rewrite (Hms _ Hq) in Hs.
    by injection Hs as <-.
Qed.

(** The run raises exactly when the search raises on one of the
    queries. *)
Theorem run_queries_raises_iff df alias_df queries acc :
  run_queries table re_other df alias_df queries acc = None <->
  exists q, q ∈ queries
            /\ search_ingredients table re_other df alias_df q = None.
Proof.
  revert acc. induction queries as [|query rest IH]; intros acc; cbn.
  - split; [done|]. by intros (q & ?%elem_of_nil & _).
  - destruct (search_ingredients table re_other df alias_df query)
      as [matches|] eqn:Hs; cbn.
    + rewrite IH. split.
      * intros (q & Hq & Hn). exists q. split; [|done].
        apply elem_of_cons. by right.
      * intros (q & [->|Hq]%elem_of_cons & Hn); [congruence|eauto].
    + split; [|done]. intros _. exists query. split; [|done].
      apply elem_of_cons. by left.
Qed.

(** Pressing the button on a blank input gives the warning and runs no
    search; on any other input a completed run has something to report:
    the two lists are never both empty. *)
Theorem on_submit_report df alias_df input_text :
  (strip_ws input_text = [] ->
   on_submit table re_other df alias_df input_text = Some Warning)
  /\ forall b,
       on_submit table re_other df alias_df input_text = Some (Report b) ->
       strip_ws input_text <> []
       /\ (results_found b <> [] \/ results_not_found b <> []).
Proof.
  unfold on_submit. split; [by intros ->|]. intros b.
  destruct (strip_ws input_text) as [|c t] eqn:Hstrip; [done|].
  destruct (run_queries _ _ _ _ _ _) as [b'|] eqn:Hrun; [|done].
  cbn. intros [= ->]. split; [done|].
  apply run_queries_spec in Hrun
    as (found & missing & Hf & Hm & Hlen & _).
  cbn in Hf, Hm. rewrite Hf, Hm.
  assert (Hq : user_queries input_text <> []).
  { intros Hnil%user_queries_blank. congruence. }
  destruct found; [|by left]. right. destruct missing; [|done].
  cbn in Hlen. by destruct (user_queries input_text).
Qed.

End BatchFacts.

Lemma user_queries_stripped_witness :
  user_queries sample_input
  = [lit "Cafeina"; lit "Acido Ascorbico"; lit "Creatina"]
  /\ strip_ws (lit "Acido Ascorbico") = lit "Acido Ascorbico".
Proof.
  split; [reflexivity|].
  apply (user_queries_stripped sample_input (lit "Acido Ascorbico")).
  apply list_elem_of_In. vm_compute. right. left. reflexivity.
Defined.

Lemma run_queries_partition_witness :
  exists b,
    run_queries unidecode_sample re_none sample_df sample_alias
      (user_queries sample_input)
      {| results_found := []; results_not_found := [] |} = Some b
    /\ (results_found b).*1 = [lit "Cafeina"; lit "Acido Ascorbico"]
    /\ results_not_found b = [lit "Creatina"]
    /\ (length (results_found b) + length (results_not_found b)
        = length (user_queries sample_input))%nat.
Proof.
  destruct (run_queries unidecode_sample re_none sample_df sample_alias
              (user_queries sample_input)
              {| results_found := []; results_not_found := [] |})
    as [b|] eqn:Hrun; [|vm_compute in Hrun; discriminate Hrun].
  exists b.
  destruct (run_queries_partition unidecode_sample re_none sample_df
              sample_alias (user_queries sample_input) b Hrun)
    as (Hlen & _).
  vm_compute in Hrun. injection Hrun as <-.
  split; [reflexivity|]. split; [reflexivity|]. split; [reflexivity|].
  exact Hlen.
Defined.

(** ** Spaces beside slashes *)

(** On text whose only whitespace is single plain spaces, none at its
    ends, line 33 leaves no space before or after a slash, keeps the spaces
    single, and keeps the first and the last character. *)
Theorem slash_step_removes_spaces text :
  Forall (fun c => plain_space c = true) text ->
  pairs (no_pair SPACE SPACE) text = true ->
  (forall c, head text = Some c -> is_space c = false) ->
  (forall c, last text = Some c -> is_space c = false) ->
  pairs (no_pair SPACE SLASH) (slash_step text) = true
  /\ pairs (no_pair SLASH SPACE) (slash_step text) = true
  /\ pairs (no_pair SPACE SPACE) (slash_step text) = true
  /\ Forall (fun c => plain_space c = true) (slash_step text)
  /\ head (slash_step text) = head text
  /\ last (slash_step text) = last text.
Proof.
  intros Hplain Hsingle Hhead Hlast. unfold slash_step.
  change (lit "/") with [SLASH].
  change (lit " / ") with [SPACE; SLASH; SPACE].
  change (lit " /") with [SPACE; SLASH].
  change (lit "/ ") with [SLASH; SPACE].
  set (t1 := replace [SPACE; SLASH; SPACE] [SLASH] text).
  set (t2 := replace [SPACE; SLASH] [SLASH] t1).
  set (t3 := replace [SLASH; SPACE] [SLASH] t2).
  assert (Hstart : forall t : pystr, head t = head text ->
            forall old, head old = Some SPACE -> starts_with old t = false).
  { intros t Ht [|a old] [= ->]. destruct t as [|c rest]; [done|].
    cbn [starts_with]. rewrite <- Ht in Hhead. specialize (Hhead c eq_refl).
    destruct (N.eqb_spec SPACE c) as [<-|]; done. }
  assert (Hend : forall t : pystr, last t = last text ->
            last t <> Some SPACE).
  { intros t Ht Hs. rewrite Ht in Hs. by specialize (Hlast _ Hs). }
  assert (H1h : head t1 = head text).
  { subst t1.
    rewrite (head_replace [SPACE; SLASH; SPACE] SPACE SPACE SLASH
               eq_refl eq_refl).
    by rewrite (Hstart text eq_refl). }
  assert (H1l : last t1 = last text).
  { subst t1.
    apply (last_replace [SPACE; SLASH; SPACE] SPACE SPACE SLASH
             eq_refl eq_refl).
    right. by apply Hend. }
  assert (H1s : pairs (no_pair SPACE SPACE) t1 = true).
  { subst t1.
    apply (replace_pairs [SPACE; SLASH; SPACE] SPACE SPACE SLASH
             eq_refl eq_refl
             (no_pair SPACE SPACE) (no_pair SPACE SPACE)) with (p0 := NUL);
      try done; intros; char_cases. }
  assert (H2h : head t2 = head text).
  { subst t2.
    rewrite (head_replace [SPACE; SLASH] SPACE SLASH SLASH eq_refl eq_refl).
    by rewrite (Hstart t1 H1h). }
  assert (H2l : last t2 = last text).
  { subst t2. rewrite <- H1l.
    apply (last_replace [SPACE; SLASH] SPACE SLASH SLASH eq_refl eq_refl).
    by left. }
  assert (H2s : pairs (no_pair SPACE SPACE) t2 = true).
  { subst t2.
    apply (replace_pairs [SPACE; SLASH] SPACE SLASH SLASH eq_refl eq_refl
             (no_pair SPACE SPACE) (no_pair SPACE SPACE)) with (p0 := NUL);
      try done; intros; char_cases. }
  assert (H2b : pairs (no_pair SPACE SLASH) t2 = true).
  { subst t2.
    apply (replace_pairs [SPACE; SLASH] SPACE SLASH SLASH eq_refl eq_refl
             (no_pair SPACE SPACE) (no_pair SPACE SLASH)) with (p0 := NUL);
      try done; intros; char_cases. }
  assert (H3h : head t3 = head text).
  { subst t3.
    rewrite (head_replace [SLASH; SPACE] SLASH SPACE SLASH eq_refl eq_refl).
    destruct (starts_with _ t2) eqn:Hs; [|done].
    rewrite <- H2h. symmetry. by apply (starts_with_head [SLASH; SPACE]). }
  assert (H3l : last t3 = last text).
  { subst t3. rewrite <- H2l.
    apply (last_replace [SLASH; SPACE] SLASH SPACE SLASH eq_refl eq_refl).
    right. by apply Hend. }
  split; [|split; [|split; [|split; [|by split]]]].
  - subst t3.
    apply (replace_pairs [SLASH; SPACE] SLASH SPACE SLASH eq_refl eq_refl
             (no_pair SPACE SLASH) (no_pair SPACE SLASH)) with (p0 := NUL);
      try done; intros; char_cases.
  - subst t3.
    apply (replace_pairs [SLASH; SPACE] SLASH SPACE SLASH eq_refl eq_refl
             (no_pair SPACE SPACE) (no_pair SLASH SPACE)) with (p0 := NUL);
      try done; intros; char_cases.
  - subst t3.
    apply (replace_pairs [SLASH; SPACE] SLASH SPACE SLASH eq_refl eq_refl
             (no_pair SPACE SPACE) (no_pair SPACE SPACE)) with (p0 := NUL);
      try done; intros; char_cases.
  - subst t3 t2 t1. do 3 (apply Forall_replace; [done|]). done.
Qed.

Lemma slash_step_removes_spaces_witness :
  slash_step (lit "omega 3 / 6 (epa/ dha) /x") = lit "omega 3/6 (epa/dha)/x"
  /\ pairs (no_pair SPACE SLASH)
       (slash_step (lit "omega 3 / 6 (epa/ dha) /x")) = true.
Proof.
  split; [reflexivity|].
  apply (slash_step_removes_spaces (lit "omega 3 / 6 (epa/ dha) /x")).
  - by apply forallb_Forall.
  - reflexivity.
  - by intros c [= <-].
  - by intros c [= <-].
Defined.

(** * Where two passes of the normaliser agree *)

Lemma sub_ws_from_length b text :
  (length (sub_ws_from b text) <= length text)%nat.
Proof.
  revert b. induction text as [|c rest IH]; intros b; cbn; [done|].
  destruct (is_space c); [destruct b|]; cbn;
    [pose proof (IH true)|pose proof (IH true)|pose proof (IH false)]; lia.
Qed.

Lemma strip_length p text : (length (strip p text) <= length text)%nat.
Proof.
  destruct (strip_spec p text) as (pre & post & Heq & _).
  rewrite Heq at 2. rewrite !length_app. lia.
Qed.

Lemma strip_same_length p text :
  length (strip p text) = length text -> strip p text = text.
Proof.
  intros Hlen. destruct (strip_spec p text) as (pre & post & Heq & _).
  rewrite Heq in Hlen at 2. rewrite !length_app in Hlen.
  destruct pre; [|cbn in Hlen; lia]. destruct post; [|cbn in Hlen; lia].
  rewrite Heq at 2. by rewrite app_nil_r.
Qed.

Lemma replace_length old n text :
  old <> [] -> (length (replace old [n] text) <= length text)%nat.
Proof.
  intros Hold. induction text as [|c rest IH] using replace_length_ind;
    [done|].
  rewrite replace_cons. destruct (starts_with old (c :: rest)); cbn.
  - assert (length (drop (pred (length old)) rest) <= length rest)%nat
      by (rewrite length_drop; lia).
    pose proof (IH (drop (pred (length old)) rest) ltac:(done)). lia.
  - pose proof (IH rest ltac:(done)). lia.
Qed.

Lemma slash_step_length text :
  (length (slash_step text) <= length text)%nat.
Proof.
  unfold slash_step. change (lit "/") with [SLASH].
  pose proof (replace_length (lit " / ") SLASH text ltac:(done)).
  pose proof (replace_length (lit " /") SLASH
                (replace (lit " / ") [SLASH] text) ltac:(done)).
  pose proof (replace_length (lit "/ ") SLASH
                (replace (lit " /") [SLASH]
                   (replace (lit " / ") [SLASH] text)) ltac:(done)).
  lia.
Qed.

Lemma strip_fixed_edges p text :
  strip p text = text ->
  (forall c, head text = Some c -> p c = false)
  /\ (forall c, last text = Some c -> p c = false).
Proof.
  intros Heq. destruct (strip_spec p text) as (_ & _ & _ & _ & _ & Hh & Hl).
  rewrite Heq in Hh, Hl. done.
Qed.

Section FixedPoints.

Variable table : char -> pystr.

(** ASCII text that [normalize] leaves as it is has the canonical shape:
    no step of the pipeline lengthens the text, so none of them can have
    removed anything. *)
Lemma fixed_is_canonical text :
  Forall (fun c => is_ascii c = true) text ->
  normalize table (PyStr text) = text ->
  canonical text.
Proof.
  intros Hascii Hfix. pose proof Hfix as Hlen.
  rewrite (normalize_ascii_steps table text Hascii) in Hlen.
  apply (f_equal length) in Hlen. unfold lower in Hlen.
  rewrite length_map in Hlen.
  pose proof (slash_step_length (trim_step (sub_ws text))) as L1.
  unfold trim_step, strip_chars, strip_ws in Hlen, L1.
  set (w := sub_ws text) in *.
  pose proof (strip_length (in_chars [SQUOTE])
                (strip (in_chars [DQUOTE]) (strip is_space w))) as L2.
  pose proof (strip_length (in_chars [DQUOTE]) (strip is_space w)) as L3.
  pose proof (strip_length is_space w) as L4.
  pose proof (sub_ws_from_length false text) as L5.
  change (sub_ws_from false text) with w in L5.
  assert (E1 : strip is_space w = w) by (apply strip_same_length; lia).
  rewrite E1 in *.
  assert (E2 : strip (in_chars [DQUOTE]) w = w)
    by (apply strip_same_length; lia).
  rewrite E2 in *.
  assert (E3 : strip (in_chars [SQUOTE]) w = w)
    by (apply strip_same_length; lia).
  destruct (strip_fixed_edges (in_chars [DQUOTE]) w E2) as [Hdh Hdl].
  destruct (strip_fixed_edges (in_chars [SQUOTE]) w E3) as [Hqh Hql].
  assert (Hq : forall c, in_chars [DQUOTE] c = false ->
            in_chars [SQUOTE] c = false ->
            in_chars [DQUOTE; SQUOTE] c = false).
  { intros c. unfold in_chars. cbn [existsb]. rewrite !orb_false_r.
    by intros -> ->. }
  rewrite <- Hfix. apply normalize_canonical; [done|..];
    unfold strip_ws; change (sub_ws text) with w; rewrite E1;
    intros c Hc; apply Hq; auto.
Qed.

Hypothesis table_ascii :
  forall c, Forall (fun x => is_ascii x = true) (table c).

Lemma normalize_is_ascii (text : pyval) :
  Forall (fun x => is_ascii x = true) (normalize table text).
Proof.
  assert (H : forall t,
    Forall (fun x => is_ascii x = true) (lower (unidecode table t))).
  { intros t. unfold lower. apply Forall_fmap.
    eapply Forall_impl; [by apply unidecode_ascii|]. apply lower_char_ascii. }
  destruct text; [constructor|apply H..].
Qed.

(** C2.  Two passes of [normalize] give what one pass gives exactly on the
    inputs whose canonical key has the canonical shape: single plain
    spaces only, none of them next to a slash, and neither whitespace nor
    a straight quote at either end (the table of Unidecode holding ASCII
    text only). *)
Theorem normalize_idempotent_iff_canonical (text : pyval) :
  normalize table (PyStr (normalize table text)) = normalize table text
  <-> canonical (normalize table text).
Proof.
  split.
  - apply fixed_is_canonical, normalize_is_ascii.
  - apply canonical_fixed.
Qed.

End FixedPoints.

Lemma normalize_idempotent_iff_canonical_witness :
  normalize unidecode_sample (PyStr (lit "Cafe" ++ [237] ++ lit "na"))
  = lit "cafeina"
  /\ normalize unidecode_sample
       (PyStr (normalize unidecode_sample
                 (PyStr (lit "Cafe" ++ [237] ++ lit "na"))))
     = normalize unidecode_sample (PyStr (lit "Cafe" ++ [237] ++ lit "na"))
  /\ ~ canonical (normalize unidecode_sample (PyStr [21271; 20140])).
Proof.
  split; [reflexivity|]. split.
  - apply (normalize_idempotent_iff_canonical unidecode_sample
             unidecode_sample_ascii).
    split; try reflexivity.
    + by apply forallb_ascii.
    + by apply forallb_Forall.
    + by intros c [= <-].
    + by intros c [= <-].
  - intros H.
    apply (normalize_idempotent_iff_canonical unidecode_sample
             unidecode_sample_ascii) in H.
    discriminate H.
Defined.

(** C9.  With the alias file absent the alias index is empty, and the
    search still reads the canonical query as a pattern: on the sample
    frame the query [B12 (cianocobalamina)] returns no row although the
    name key of the third row contains it, and the query [Vitamina B12 (]
    raises. *)
Theorem degraded_mode_reads_query_as_pattern re_other :
  load_alias unidecode_sample None = []
  /\ search_ingredients unidecode_sample re_other sample_df
       (load_alias unidecode_sample None) (lit "B12 (cianocobalamina)")
     = Some []
  /\ (exists r, rows sample_df !! 2%nat = Some r
       /\ substring (key_of "B12 (cianocobalamina)") (norm_ingredient r))
  /\ search_ingredients unidecode_sample re_other sample_df
       (load_alias unidecode_sample None) (lit "Vitamina B12 (") = None.
Proof.
  split; [reflexivity|]. split; [reflexivity|]. split; [|reflexivity].
  eexists. split; [reflexivity|]. by exists (lit "vitamina "), [].
Qed.
